(** * prosaic.parsing: the streaming segmenter and its worker protocol

    A shallow embedding of [process_line] and [process_text_stream] from
    [prosaic/parsing.py], together with the properties the design document
    states about them. *)

From Stdlib Require Import NArith String Ascii.
From stdpp Require Import gmap list.

Set Warnings "-abstract-large-number".

Open Scope N_scope.
Open Scope nat_scope.

(** ** Python values *)

(** A Python [str] is a sequence of Unicode code points. *)
Definition pystr := list N.

Definition pystr_of_string (s : string) : pystr :=
  map N_of_ascii (list_ascii_of_string s).

(** [s.endswith(suffix)] *)
Definition endswith (s suffix : pystr) : bool :=
  bool_decide (drop (length s - length suffix) s = suffix).

(** A dict display [{k1: v1, k2: v2, ...}] inserts its items from left to
    right, so a key written twice keeps the last value. *)
Definition py_dict (items : list (N * bool)) : gmap N bool :=
  foldl (fun d kv => <[kv.1 := kv.2]> d) ∅ items.

(** [d.get(c, False)] *)
Definition get (d : gmap N bool) (c : N) : bool :=
  default false (d !! c).

(** ** Module constants *)

Definition CHUNK_SIZE : nat := 10000.

Definition BAD_CHARS : gmap N bool :=
  py_dict [ (40%N, true);    (* ( *)
            (41%N, true);    (* ) *)
            (123%N, true);   (* { *)
            (125%N, true);   (* } *)
            (91%N, true);    (* [ *)
            (93%N, true);    (* ] *)
            (96%N, true);    (* ` *)
            (39%N, true);    (* ' *)
            (34%N, true);    (* double quote *)
            (10%N, true);    (* \n *)
            (8220%N, true);  (* U+201C *)
            (8221%N, true);  (* U+201D *)
            (171%N, true);   (* U+00AB *)
            (187%N, true);   (* U+00BB *)
            (39%N, true);    (* ' again *)
            (92%N, true);    (* \ *)
            (95%N, true) ].  (* _ *)

Definition CLAUSE_MARKERS : gmap N bool :=
  py_dict [ (44%N, true); (59%N, true); (58%N, true) ].   (* , ; : *)

Definition SENTENCE_MARKERS : gmap N bool :=
  py_dict [ (63%N, true); (46%N, true); (33%N, true) ].   (* ? . ! *)

Definition LONG_ENOUGH : nat := 20.

Definition space : N := 32%N.

(** ** The locals of [process_text_stream] *)

Record State := mkState {
  line_no : nat;
  ultimate_text : pystr;
  futures : list (nat * pystr);   (* arguments of each [pool.submit] *)
  line_buff : pystr
}.

Definition set_line_buff (b : pystr) (s : State) : State :=
  mkState (line_no s) (ultimate_text s) (futures s) b.

(** The four statements of a submitting branch:
    [ultimate_text += line_buff], [futures.append(pool.submit(...))],
    [line_no += 1]; the buffer is left to the caller. *)
Definition submit (s : State) : State :=
  mkState (line_no s + 1)
          (ultimate_text s ++ line_buff s)
          (futures s ++ [(line_no s, line_buff s)])
          (line_buff s).

(** Body of [for c in chunk]. *)
Definition step (s : State) (c : N) : State :=
  if get BAD_CHARS c then
    if negb (endswith (line_buff s) [space])
    then set_line_buff (line_buff s ++ [space]) s
    else s
  else if get CLAUSE_MARKERS c then
    if LONG_ENOUGH <? length (line_buff s)
    then set_line_buff [] (submit s)
    else set_line_buff (line_buff s ++ [c]) s
  else if get SENTENCE_MARKERS c then
    set_line_buff []
      (if LONG_ENOUGH <? length (line_buff s) then submit s else s)
  else set_line_buff (line_buff s ++ [c]) s.

(** One turn of the [while] loop body up to the next read:
    [line_buff = ""] followed by the [for] loop. *)
Definition scan_chunk (chunk : pystr) (s : State) : State :=
  foldl step (set_line_buff [] s) chunk.

(** [text.read(size)] on a stream whose unread part is [text]: the chunk
    and the new unread part. *)
Definition read (size : nat) (text : pystr) : pystr * pystr :=
  (take size text, drop size text).

(** The [while len(chunk) > 0] loop.  [chunk] is the chunk already read,
    [text] the unread rest.  [None] when the fuel is exhausted. *)
Fixpoint read_loop (fuel : nat) (size : nat) (chunk text : pystr) (s : State)
  : option State :=
  match fuel with
  | O => None
  | S fuel' =>
      if 0 <? length chunk then
        let s' := scan_chunk chunk s in
        let '(chunk', text') := read size text in
        read_loop fuel' size chunk' text' s'
      else Some s
  end.

Definition init_state : State := mkState 0 [] [] [].

(** The segmenting part of [process_text_stream], with the chunk size as a
    parameter: first read, then the loop.  Every turn of the loop consumes
    at least one character, so [length text + 1] turns always suffice. *)
Definition segment_opt (size : nat) (text : pystr) : option State :=
  let '(chunk, text') := read size text in
  read_loop (S (length text)) size chunk text' init_state.

Definition segment (size : nat) (text : pystr) : State :=
  default init_state (segment_opt size text).

(** ** Classification of a character, as the three tests order it *)

Inductive Category := Ordinary | Filtered | ClauseMarker | SentenceMarker.

Definition classify (c : N) : Category :=
  if get BAD_CHARS c then Filtered
  else if get CLAUSE_MARKERS c then ClauseMarker
  else if get SENTENCE_MARKERS c then SentenceMarker
  else Ordinary.

(** A character that may stay in the buffer. *)
Definition clean (c : N) : Prop :=
  classify c <> Filtered /\ classify c <> SentenceMarker.

(** A character at which nothing is ever submitted. *)
Definition quiet (c : N) : Prop :=
  classify c <> ClauseMarker /\ classify c <> SentenceMarker.

(** What the rest of [process_text_stream] reads of the locals once the
    loop has ended; [line_buff] is not among them. *)
Definition outputs (s : State) : nat * pystr * list (nat * pystr) :=
  (line_no s, ultimate_text s, futures s).

(** ** The persistent-buffer segmenter of the design document

    Section 4.2 of the design keeps one [buffer] for the whole stream:
    [feed] never clears it between chunks. *)

Definition spec_feed (chunk : pystr) (s : State) : State :=
  foldl step s chunk.

Fixpoint spec_read_loop (fuel : nat) (size : nat) (chunk text : pystr)
  (s : State) : option State :=
  match fuel with
  | O => None
  | S fuel' =>
      if 0 <? length chunk then
        let s' := spec_feed chunk s in
        let '(chunk', text') := read size text in
        spec_read_loop fuel' size chunk' text' s'
      else Some s
  end.

Definition spec_segment (size : nat) (text : pystr) : State :=
  let '(chunk, text') := read size text in
  default init_state
    (spec_read_loop (S (length text)) size chunk text' init_state).

(** ** Storage and the collaborators of a worker *)

Inductive Exn :=
  | NoResultFound            (* [Query.one] found no row *)
  | AnalyzerError (code : nat)
  | StorageError (code : nat).

Record Phrase := mkPhrase {
  stems : list pystr;
  raw : pystr;
  alliteration : bool;
  rhyme_sound : pystr;
  syllables : Z;
  phrase_line_no : nat;
  phrase_source : Z          (* id of the parent source *)
}.

(** What [session.add] can be given here. *)
Inductive Row :=
  | PhraseRow (p : Phrase)
  | SourceRow (id : Z) (content : pystr).

(** The durable store: the content of each source by id, and the phrase
    rows in the order they were written. *)
Record Database := mkDatabase {
  sources : gmap Z pystr;
  phrases : list Phrase
}.

Definition apply_row (db : Database) (r : Row) : Database :=
  match r with
  | PhraseRow p => mkDatabase (sources db) (phrases db ++ [p])
  | SourceRow id content => mkDatabase (<[id := content]> (sources db)) (phrases db)
  end.

(** [prosaic.nlp] and the faults of the storage layer are outside this
    module: the analyzer functions may raise, and a commit may be refused. *)
Class Collaborators := {
  stem_sentence : pystr -> Exn + list pystr;
  nlp_rhyme_sound : pystr -> Exn + pystr;
  count_syllables : pystr -> Exn + Z;
  has_alliteration : pystr -> Exn + bool;
  commit_fault : list Row -> option Exn
}.

(** ** Computations of one process: a session over the durable store *)

Record World := mkWorld {
  durable : Database;
  pending : list Row         (* added to the session, not yet committed *)
}.

Definition M (A : Type) : Type := World -> World * (Exn + A).

Definition ret {A} (a : A) : M A := fun w => (w, inr a).

Definition raise {A} (e : Exn) : M A := fun w => (w, inl e).

Definition bind {A B} (m : M A) (k : A -> M B) : M B :=
  fun w => match m w with
           | (w', inl e) => (w', inl e)
           | (w', inr a) => k a w'
           end.

Notation "'do' x <- m ; k" := (bind m (fun x => k))
  (at level 10, x name, m at level 100, k at level 200).
Notation "m ;;; k" := (bind m (fun _ => k))
  (at level 100, k at level 200, right associativity).

Definition lift {A} (r : Exn + A) : M A :=
  match r with inl e => raise e | inr a => ret a end.

(** [session.query(Source).filter(Source.id == source_id).one()] *)
Definition query_source_one (source_id : Z) : M Z :=
  fun w => match sources (durable w) !! source_id with
           | Some _ => (w, inr source_id)
           | None => (w, inl NoResultFound)
           end.

Definition session_add (r : Row) : M unit :=
  fun w => (mkWorld (durable w) (pending w ++ [r]), inr tt).

Definition session_commit `{Collaborators} : M unit :=
  fun w => match commit_fault (pending w) with
           | Some e => (w, inl e)
           | None => (mkWorld (foldl apply_row (durable w) (pending w)) [], inr tt)
           end.

(** ** [process_line] *)

Definition process_line `{Collaborators}
  (source_id : Z) (line_no : nat) (line : pystr) : M unit :=
  do source <- query_source_one source_id;
  do stems <- lift (stem_sentence line);
  do rhyme_sound <- lift (nlp_rhyme_sound line);
  do syllables <- lift (count_syllables line);
  do alliteration <- lift (has_alliteration line);
  let phrase :=
    mkPhrase stems line alliteration rhyme_sound syllables line_no source in
  session_add (PhraseRow phrase) ;;;
  session_commit.

(** A worker process runs [process_line] with a session of its own
    ([get_session]) against the shared store. *)
Definition run_unit `{Collaborators}
  (source_id : Z) (call : nat * pystr) (db : Database)
  : Database * (Exn + unit) :=
  let '(w, r) := process_line source_id call.1 call.2 (mkWorld db []) in
  (durable w, r).

(** ** The pool and the barrier

    The executor runs every submitted call; leaving the [with] block waits
    for all of them, also when the block is left by an exception.  Each
    call commits once, so the store ends as if the calls had run one after
    the other in some order [exec], given by the index of each future in
    [futures].  [as_completed] yields the futures in some order
    [completion]. *)

Definition run_pool `{Collaborators}
  (exec : list nat) (source_id : Z) (futs : list (nat * pystr))
  (db : Database) : Database * gmap nat (Exn + unit) :=
  foldl (fun acc i =>
           match futs !! i with
           | Some call =>
               let '(db', r) := run_unit source_id call acc.1 in
               (db', <[i := r]> acc.2)
           | None => acc
           end) (db, ∅) exec.

(** [for fut in as_completed(futures): if fut.exception() is not None:
    raise fut.exception()] *)
Fixpoint first_exception (completion : list nat)
  (results : gmap nat (Exn + unit)) : option Exn :=
  match completion with
  | [] => None
  | i :: rest =>
      match results !! i with
      | Some (inl e) => Some e
      | _ => first_exception rest results
      end
  end.

(** ** [process_text_stream] *)

Definition process_text_stream `{Collaborators}
  (exec completion : list nat) (source_id : Z) (text : pystr) : M unit :=
  session_add (SourceRow source_id []) ;;;
  session_commit ;;;
  let st := segment CHUNK_SIZE text in
  do results <- (fun w =>
      let '(db, results) := run_pool exec source_id (futures st) (durable w) in
      (mkWorld db (pending w), inr results));
  match first_exception completion results with
  | Some e => raise e
  | None =>
      session_add (SourceRow source_id (ultimate_text st)) ;;;
      session_commit
  end.

(** ** The failure scenario of the design document

    Three units of work whose analysis always succeeds; the store refuses
    the phrase of line 1 and accepts every other write. *)
Definition second_unit_fails : Collaborators := {|
  stem_sentence := fun _ => inr [];
  nlp_rhyme_sound := fun _ => inr [];
  count_syllables := fun _ => inr 0%Z;
  has_alliteration := fun _ => inr false;
  commit_fault := fun rows =>
    match rows with
    | [PhraseRow p] =>
        if phrase_line_no p =? 1 then Some (StorageError 0) else None
    | _ => None
    end
|}.

Definition three_clauses : pystr :=
  pystr_of_string
    "the first clause is long enough, the second clause is long enough; the third clause is long enough.".

(** ** The batch pipeline: more Python string operations *)

(** [c.isspace()], which is also what the pattern [\s] matches on a [str]:
    U+0009..U+000D, U+001C..U+0020, U+0085, U+00A0, U+1680,
    U+2000..U+200A, U+2028, U+2029, U+202F, U+205F, U+3000. *)
Definition isspace (c : N) : bool :=
  ((9 <=? c) && (c <=? 13) || (28 <=? c) && (c <=? 32) ||
   (c =? 133) || (c =? 160) || (c =? 5760) ||
   (8192 <=? c) && (c <=? 8202) ||
   (c =? 8232) || (c =? 8233) || (c =? 8239) || (c =? 8287) ||
   (c =? 12288))%N.

(** [s.startswith(prefix)] *)
Fixpoint startswith (s prefix : pystr) {struct prefix} : bool :=
  match prefix, s with
  | [], _ => true
  | _ :: _, [] => false
  | p :: prefix', c :: s' => bool_decide (c = p) && startswith s' prefix'
  end.

(** [s.count(sub)]: the occurrences of [sub] found from left to right,
    none overlapping an earlier one.  [skip] characters of an occurrence
    already counted are still to be passed. *)
Fixpoint count_from (sub : pystr) (skip : nat) (s : pystr) : nat :=
  match s with
  | [] => 0
  | _ :: s' =>
      match skip with
      | S k => count_from sub k s'
      | O => if startswith s sub
             then S (count_from sub (length sub - 1) s')
             else count_from sub 0 s'
      end
  end.

Definition py_count (s sub : pystr) : nat :=
  match sub with
  | [] => S (length s)
  | _ => count_from sub 0 s
  end.

(** [s.replace(sub, '')]: the same occurrences, deleted. *)
Fixpoint remove_from (sub : pystr) (skip : nat) (s : pystr) : pystr :=
  match s with
  | [] => []
  | c :: s' =>
      match skip with
      | S k => remove_from sub k s'
      | O => if startswith s sub
             then remove_from sub (length sub - 1) s'
             else c :: remove_from sub 0 s'
      end
  end.

Definition py_remove (s sub : pystr) : pystr :=
  match sub with
  | [] => s
  | _ => remove_from sub 0 s
  end.

(** [s.lstrip()] and [s.rstrip()] *)
Fixpoint lstrip (s : pystr) : pystr :=
  match s with
  | [] => []
  | c :: s' => if isspace c then lstrip s' else s
  end.

Definition rstrip (s : pystr) : pystr := reverse (lstrip (reverse s)).

(** ** Constants of the batch pipeline *)

Definition pairs : list (N * N) :=
  [ (123%N, 125%N); (40%N, 41%N); (91%N, 93%N) ].   (* {} () [] *)

Definition bad_substrings : list pystr :=
  [ [96%N];            (* ` *)
    [8220%N];          (* U+201C *)
    [8221%N];          (* U+201D *)
    [171%N];           (* U+00AB *)
    [187%N];           (* U+00BB *)
    [39%N; 39%N];      (* two apostrophes *)
    [92%N; 110%N];     (* backslash, n *)
    [92%N] ].          (* backslash *)

(** [re.sub(collapse_whitespace_re, ' ', s)] for the pattern [\s+]:
    every maximal run of whitespace becomes one space.  [in_run] tells
    that the previous character was whitespace. *)
Fixpoint collapse_whitespace (in_run : bool) (s : pystr) : pystr :=
  match s with
  | [] => []
  | c :: s' =>
      if isspace c
      then if in_run then collapse_whitespace true s'
           else space :: collapse_whitespace true s'
      else c :: collapse_whitespace false s'
  end.

(** ** [pre_process_text] *)

Definition pre_process_text (raw_text : pystr) : pystr :=
  collapse_whitespace false raw_text.

(** ** [pre_process_sentence] *)

(** Body of [for l,r in pairs]; the second test reads the sentence the
    first one may have changed. *)
Definition strip_dangling (sentence : pystr) (lr : N * N) : pystr :=
  let '(l, r) := lr in
  let sentence :=
    if (py_count sentence [l] =? 1) && (py_count sentence [r] =? 0)
    then py_remove sentence [l] else sentence in
  if (py_count sentence [r] =? 1) && (py_count sentence [l] =? 0)
  then py_remove sentence [r] else sentence.

Definition double_quote : N := 34%N.

Definition pre_process_sentence (sentence : pystr) : pystr :=
  let sentence :=
    if py_count sentence [double_quote] =? 1
    then py_remove sentence [double_quote] else sentence in
  let sentence := foldl strip_dangling sentence pairs in
  let sentence := foldl py_remove sentence bad_substrings in
  lstrip (rstrip sentence).

(** ** [process_text] *)

(** Body of [for x in range(0, len(sentences))], from index [x] on. *)
Fixpoint add_phrases `{Collaborators}
  (source_id : Z) (x : nat) (sentences : list pystr) : M unit :=
  match sentences with
  | [] => ret tt
  | s :: rest =>
      let sentence := pre_process_sentence s in
      do stems <- lift (stem_sentence sentence);
      do rhyme_sound <- lift (nlp_rhyme_sound sentence);
      do syllables <- lift (count_syllables sentence);
      do alliteration <- lift (has_alliteration sentence);
      let phrase :=
        mkPhrase stems sentence alliteration rhyme_sound syllables x
                 source_id in
      session_add (PhraseRow phrase) ;;;
      add_phrases source_id (S x) rest
  end.

(** [nlp_sentences] is [nlp.sentences], the sentence tokenizer, which is
    outside this module and may raise. *)
Definition process_text `{Collaborators}
  (nlp_sentences : pystr -> Exn + list pystr)
  (source_id : Z) (raw_text : pystr) : M unit :=
  let text := pre_process_text raw_text in
  session_add (SourceRow source_id text) ;;;
  do sentences <- lift (nlp_sentences text);
  add_phrases source_id 0 sentences.


(** ** Stores for the scenarios of [process_text_stream]

    The analysis always succeeds; the store refuses the commits that
    [refused] selects. *)
Definition store_refusing (refused : list Row -> bool) : Collaborators := {|
  stem_sentence := fun _ => inr [];
  nlp_rhyme_sound := fun _ => inr [];
  count_syllables := fun _ => inr 0%Z;
  has_alliteration := fun _ => inr false;
  commit_fault := fun rows =>
    if refused rows then Some (StorageError 0) else None
|}.


(** * Properties *)

(** ** Dictionaries *)

Lemma py_dict_snoc items kv :
  py_dict (items ++ [kv]) = <[kv.1 := kv.2]> (py_dict items).
Proof. unfold py_dict. by rewrite foldl_app. Qed.

Lemma get_py_dict_true items c :
  get (py_dict items) c = true -> c ∈ items.*1.
Proof.
  induction items as [|kv items IH] using rev_ind.
  - unfold get, py_dict. simpl. rewrite lookup_empty. discriminate.
  - rewrite py_dict_snoc, fmap_app. unfold get in *.
    rewrite lookup_insert. case_decide as Hk.
    + intros _. apply elem_of_app. right. simpl. rewrite Hk. left.
    + intros H. apply elem_of_app. left. by apply IH.
Qed.

Lemma clause_marker_cases c :
  get CLAUSE_MARKERS c = true -> c = 44%N \/ c = 59%N \/ c = 58%N.
Proof.
  intros H. apply get_py_dict_true in H. simpl in H.
  repeat (apply elem_of_cons in H as [-> | H]; [tauto|]).
  by apply elem_of_nil in H.
Qed.

Lemma clause_not_sentence c :
  get CLAUSE_MARKERS c = true -> get SENTENCE_MARKERS c = false.
Proof.
  intros H. destruct (clause_marker_cases c H) as [-> | [-> | ->]];
    vm_compute; reflexivity.
Qed.

(** ** The read loop always returns *)

Lemma read_loop_enough_fuel fuel size chunk text s :
  length chunk + length text < fuel ->
  is_Some (read_loop fuel size chunk text s).
Proof.
  revert chunk text s.
  induction fuel as [|fuel IH]; intros chunk text s Hlt; [lia|].
  simpl. destruct (0 <? length chunk) eqn:Hc; [|eauto].
  apply Nat.ltb_lt in Hc. apply IH.
  rewrite length_take, length_drop. lia.
Qed.

Lemma segment_opt_total size text :
  segment_opt size text = Some (segment size text).
Proof.
  unfold segment. destruct (segment_opt size text) eqn:E; [done|].
  unfold segment_opt, read in E.
  destruct (read_loop_enough_fuel (S (length text)) size
              (take size text) (drop size text) init_state) as [s' Hs'].
  - rewrite length_take, length_drop. lia.
  - congruence.
Qed.

(** ** Invariants of the scan

    A property of the locals that holds initially, survives the reset of
    the buffer at the head of each chunk and survives [step], holds when
    the loop ends. *)

Section Invariant.
Variable P : State -> Prop.
Hypothesis P_reset : forall s, P s -> P (set_line_buff [] s).
Hypothesis P_step : forall s c, P s -> P (step s c).

Lemma foldl_step_inv chunk s : P s -> P (foldl step s chunk).
Proof using P_step.
  revert s. induction chunk as [|c chunk IH]; simpl; auto.
Qed.

Lemma scan_chunk_inv chunk s : P s -> P (scan_chunk chunk s).
Proof using P_step P_reset.
  intros H. unfold scan_chunk. apply foldl_step_inv. auto.
Qed.

Lemma read_loop_inv fuel size chunk text s s' :
  read_loop fuel size chunk text s = Some s' -> P s -> P s'.
Proof using P_step P_reset.
  revert chunk text s.
  induction fuel as [|fuel IH]; intros chunk text s; simpl; [discriminate|].
  destruct (0 <? length chunk).
  - intros H Hs. eapply IH; [exact H|]. by apply scan_chunk_inv.
  - intros [= <-]. auto.
Qed.

Lemma segment_inv size text : P init_state -> P (segment size text).
Proof using P_step P_reset.
  intros H0. pose proof (segment_opt_total size text) as E.
  unfold segment_opt, read in E.
  eapply read_loop_inv; [exact E | exact H0].
Qed.
End Invariant.

(** ** What one character does *)

Lemma endswith_snoc b c : endswith (b ++ [c]) [c] = true.
Proof.
  unfold endswith. apply bool_decide_eq_true.
  rewrite length_app. simpl.
  replace (length b + 1 - 1) with (length b) by lia.
  apply drop_app_length.
Qed.

Lemma classify_filtered c : classify c = Filtered <-> get BAD_CHARS c = true.
Proof.
  unfold classify.
  destruct (get BAD_CHARS c), (get CLAUSE_MARKERS c), (get SENTENCE_MARKERS c);
    split; intros; congruence.
Qed.

Lemma classify_clause c :
  classify c = ClauseMarker <->
  get BAD_CHARS c = false /\ get CLAUSE_MARKERS c = true.
Proof.
  unfold classify.
  destruct (get BAD_CHARS c), (get CLAUSE_MARKERS c), (get SENTENCE_MARKERS c);
    split; intros; try congruence; try tauto; destruct H; congruence.
Qed.

Lemma classify_sentence c :
  classify c = SentenceMarker <->
  get BAD_CHARS c = false /\ get CLAUSE_MARKERS c = false /\
  get SENTENCE_MARKERS c = true.
Proof.
  unfold classify.
  destruct (get BAD_CHARS c), (get CLAUSE_MARKERS c), (get SENTENCE_MARKERS c);
    split; intros; try congruence; try tauto; destruct H as (? & ? & ?); congruence.
Qed.

Lemma classify_ordinary c :
  classify c = Ordinary <->
  get BAD_CHARS c = false /\ get CLAUSE_MARKERS c = false /\
  get SENTENCE_MARKERS c = false.
Proof.
  unfold classify.
  destruct (get BAD_CHARS c), (get CLAUSE_MARKERS c), (get SENTENCE_MARKERS c);
    split; intros; try congruence; try tauto; destruct H as (? & ? & ?); congruence.
Qed.

(** A character either leaves the counter, the accumulator and the list of
    submissions alone, or it is a marker met with a long buffer, and then
    the whole submitting branch runs. *)
Lemma step_cases s c :
  (line_no (step s c) = line_no s /\
   ultimate_text (step s c) = ultimate_text s /\
   futures (step s c) = futures s) \/
  (LONG_ENOUGH < length (line_buff s) /\
   (classify c = ClauseMarker \/ classify c = SentenceMarker) /\
   step s c = set_line_buff [] (submit s)).
Proof.
  unfold step.
  destruct (get BAD_CHARS c) eqn:Hb.
  { left. destruct (negb _); auto. }
  destruct (get CLAUSE_MARKERS c) eqn:Hc.
  { destruct (LONG_ENOUGH <? length (line_buff s)) eqn:Hl.
    - right. apply Nat.ltb_lt in Hl. split; [exact Hl|]. split; [|done].
      left. by apply classify_clause.
    - left. auto. }
  destruct (get SENTENCE_MARKERS c) eqn:Hs.
  { destruct (LONG_ENOUGH <? length (line_buff s)) eqn:Hl.
    - right. apply Nat.ltb_lt in Hl. split; [exact Hl|]. split; [|done].
      right. by apply classify_sentence.
    - left. auto. }
  left. auto.
Qed.

(** ** C4: emitted candidates are longer than the threshold *)

(** C4. Whenever a character makes the segmenter submit, on the clause or
    on the sentence path, the submitted text is the buffer and the buffer is
    strictly longer than [LONG_ENOUGH]; hence every candidate submitted for
    any text and any chunk size is strictly longer than [LONG_ENOUGH]. *)
Theorem emitted_longer_than_LONG_ENOUGH :
  (forall s c,
     futures (step s c) = futures s \/
     (futures (step s c) = futures s ++ [(line_no s, line_buff s)] /\
      LONG_ENOUGH < length (line_buff s))) /\
  (forall size text,
     Forall (fun p => LONG_ENOUGH < length p.2) (futures (segment size text))).
Proof.
  split.
  - intros s c. destruct (step_cases s c) as [(_ & _ & H) | (Hl & _ & ->)]; auto.
  - intros size text.
    apply (segment_inv (fun s => Forall (fun p => LONG_ENOUGH < length p.2) (futures s))).
    + auto.
    + intros s c H.
      destruct (step_cases s c) as [(_ & _ & ->) | (Hl & _ & ->)]; [done|].
      simpl. apply Forall_app. split; [done|]. by constructor.
    + constructor.
Qed.

(** ** C5: sequence numbers count the emissions *)

(** C5. The line numbers attached to the submitted candidates of one stream
    are 0, 1, 2, ... in submission order, and the counter left at the end
    is the number of submissions. *)
Theorem line_numbers_count_from_zero size text :
  (futures (segment size text)).*1 = seq 0 (length (futures (segment size text)))
  /\ line_no (segment size text) = length (futures (segment size text)).
Proof.
  assert (H : (futures (segment size text)).*1 = seq 0 (line_no (segment size text))
              /\ line_no (segment size text) = length (futures (segment size text))).
  { apply (segment_inv (fun s => (futures s).*1 = seq 0 (line_no s)
                                 /\ line_no s = length (futures s))).
    - auto.
    - intros s c [H1 H2].
      destruct (step_cases s c) as [(-> & _ & ->) | (_ & _ & ->)]; [done|].
      simpl. rewrite fmap_app, length_app, seq_app, H1. simpl.
      split; [done | lia].
    - done. }
  destruct H as [H1 H2]. split; [|done]. by rewrite H1, H2.
Qed.

(** ** C2: what the accumulator holds *)

(** C2, as the code has it. The accumulator written back to the source is
    the concatenation of all submitted candidates in submission order:
    the sentence path appends its candidate just as the clause path does. *)
Theorem ultimate_text_is_all_emissions size text :
  ultimate_text (segment size text) = concat (futures (segment size text)).*2.
Proof.
  apply (segment_inv (fun s => ultimate_text s = concat (futures s).*2)).
  - auto.
  - intros s c H.
    destruct (step_cases s c) as [(_ & -> & ->) | (_ & _ & ->)]; [done|].
    simpl. rewrite fmap_app, concat_app, H. simpl. by rewrite app_nil_r.
  - done.
Qed.

(** The claim as written fails on a text whose only emission is made at a
    sentence marker: the accumulator is that candidate, not the empty
    string. *)
Lemma sentence_emission_is_accumulated :
  let text := pystr_of_string "a long enough sentence here." in
  let s := segment CHUNK_SIZE text in
  Forall (fun c => classify c <> ClauseMarker) text /\
  futures s = [(0, pystr_of_string "a long enough sentence here")] /\
  ultimate_text s = pystr_of_string "a long enough sentence here" /\
  ultimate_text s <> [].
Proof.
  cbv zeta. split; [|split; [|split]].
  - set (t := pystr_of_string _). vm_compute in t. subst t.
    repeat (constructor; [by vm_compute|]). constructor.
  - vm_compute. reflexivity.
  - vm_compute. reflexivity.
  - vm_compute. discriminate.
Qed.

(** ** C10: what an emitted candidate can contain *)

Lemma clean_space : clean space.
Proof. split; by vm_compute. Qed.

Lemma step_clean s c :
  Forall clean (line_buff s) ->
  Forall (fun p => Forall clean p.2) (futures s) ->
  Forall clean (line_buff (step s c)) /\
  Forall (fun p => Forall clean p.2) (futures (step s c)).
Proof.
  intros Hb Hf. unfold step.
  destruct (get BAD_CHARS c) eqn:Hbad.
  { destruct (negb _); simpl; [|done].
    split; [|done]. apply Forall_app. split; [done|].
    constructor; [apply clean_space | constructor]. }
  destruct (get CLAUSE_MARKERS c) eqn:Hcl.
  { assert (Hc : classify c = ClauseMarker) by by apply classify_clause.
    destruct (LONG_ENOUGH <? length (line_buff s)); simpl.
    - split; [constructor|]. apply Forall_app. split; [done|].
      by constructor.
    - split; [|done]. apply Forall_app. split; [done|].
      constructor; [|constructor]. split; rewrite Hc; discriminate. }
  destruct (get SENTENCE_MARKERS c) eqn:Hse.
  { destruct (LONG_ENOUGH <? length (line_buff s)); simpl.
    - split; [constructor|]. apply Forall_app. split; [done|].
      by constructor.
    - split; [constructor | done]. }
  assert (Hc : classify c = Ordinary) by by apply classify_ordinary.
  simpl. split; [|done]. apply Forall_app. split; [done|].
  constructor; [|constructor]. split; rewrite Hc; discriminate.
Qed.

(** C10. No submitted candidate contains a filtered character or a
    sentence marker: each of its characters is an ordinary character (the
    space written for a filtered one among them) or a retained clause
    marker. *)
Theorem emitted_has_no_filtered_nor_sentence_marker size text :
  Forall (fun p => Forall (fun c => classify c <> Filtered /\
                                    classify c <> SentenceMarker) p.2)
         (futures (segment size text)).
Proof.
  apply (segment_inv (fun s => Forall clean (line_buff s) /\
                               Forall (fun p => Forall clean p.2) (futures s))).
  - intros s [_ Hf]. split; [constructor | exact Hf].
  - intros s c [Hb Hf]. by apply step_clean.
  - split; constructor.
Qed.

(** ** C7: the clause-marker case *)

(** C7. At a clause marker, a buffer strictly longer than the threshold is
    submitted as it stands, under the current line number, and the buffer
    restarts empty; a shorter buffer is kept and the marker is appended
    to it, with nothing submitted.  The two boundary inputs of the design
    document behave accordingly. *)
Theorem clause_marker_case s c :
  classify c = ClauseMarker ->
  (LONG_ENOUGH < length (line_buff s) ->
     futures (step s c) = futures s ++ [(line_no s, line_buff s)] /\
     line_buff (step s c) = []) /\
  (length (line_buff s) <= LONG_ENOUGH ->
     step s c = set_line_buff (line_buff s ++ [c]) s) /\
  (let s1 := scan_chunk (pystr_of_string "short,") init_state in
   futures s1 = [] /\ line_buff s1 = pystr_of_string "short,") /\
  (let s2 := scan_chunk (pystr_of_string "twentycharacterslongg,") init_state in
   futures s2 = [(0, pystr_of_string "twentycharacterslongg")] /\
   line_buff s2 = []).
Proof.
  intros Hc. apply classify_clause in Hc as [Hbad Hcl].
  split; [|split; [|split]].
  - intros Hl. apply Nat.ltb_lt in Hl. unfold step. by rewrite Hbad, Hcl, Hl.
  - intros Hl. apply Nat.ltb_ge in Hl. unfold step. by rewrite Hbad, Hcl, Hl.
  - by vm_compute.
  - by vm_compute.
Qed.

Lemma clause_marker_case_witness :
  classify 44%N = ClauseMarker /\
  futures (step (mkState 3 [] [] (pystr_of_string "twentycharacterslongg")) 44%N)
  = [(3, pystr_of_string "twentycharacterslongg")].
Proof.
  split; [by vm_compute|].
  pose proof (clause_marker_case
                (mkState 3 [] [] (pystr_of_string "twentycharacterslongg")) 44%N)
    as H.
  destruct H as [H _]; [by vm_compute|].
  destruct H as [H _]; [vm_compute; lia|].
  exact H.
Defined.

(** ** C8: runs of filtered characters *)

Lemma step_filtered s c :
  classify c = Filtered ->
  step s c = if endswith (line_buff s) [space] then s
             else set_line_buff (line_buff s ++ [space]) s.
Proof.
  intros Hc. apply classify_filtered in Hc. unfold step. rewrite Hc.
  by destruct (endswith _ _).
Qed.

Lemma step_filtered_ends_with_space s c :
  classify c = Filtered -> endswith (line_buff (step s c)) [space] = true.
Proof.
  intros Hc. rewrite (step_filtered s c Hc).
  destruct (endswith (line_buff s) [space]) eqn:E; [done|].
  simpl. apply endswith_snoc.
Qed.

Lemma filtered_run_absorbed run s :
  Forall (fun c => classify c = Filtered) run ->
  endswith (line_buff s) [space] = true ->
  foldl step s run = s.
Proof.
  intros Hrun. revert s.
  induction Hrun as [|c run Hc _ IH]; intros s He; simpl; [done|].
  rewrite (step_filtered s c Hc), He. by apply IH.
Qed.

(** C8. A filtered character appends one space when the buffer does not
    end with a space and is dropped otherwise, and the filtered characters
    that follow it in the same run are all dropped: the run as a whole has
    the effect of its first character, so it leaves at most one space.
    Scanning a((()))b leaves the buffer a b. *)
Theorem filtered_run_collapses s c run :
  classify c = Filtered ->
  Forall (fun c' => classify c' = Filtered) run ->
  foldl step s (c :: run) = step s c /\
  step s c = (if endswith (line_buff s) [space] then s
              else set_line_buff (line_buff s ++ [space]) s) /\
  line_buff (scan_chunk (pystr_of_string "a((()))b") init_state)
  = pystr_of_string "a b".
Proof.
  intros Hc Hrun. split; [|split].
  - simpl. apply filtered_run_absorbed; [done|].
    by apply step_filtered_ends_with_space.
  - by apply step_filtered.
  - by vm_compute.
Qed.

Lemma filtered_run_collapses_witness :
  classify 40%N = Filtered /\
  Forall (fun c' => classify c' = Filtered) [40%N; 40%N; 41%N; 41%N; 41%N] /\
  foldl step (mkState 0 [] [] [97%N]) [40%N; 40%N; 40%N; 41%N; 41%N; 41%N]
  = mkState 0 [] [] [97%N; 32%N].
Proof.
  assert (H1 : classify 40%N = Filtered) by by vm_compute.
  assert (H2 : Forall (fun c' => classify c' = Filtered)
                 [40%N; 40%N; 41%N; 41%N; 41%N]).
  { repeat (constructor; [by vm_compute|]). constructor. }
  split; [exact H1|]. split; [exact H2|].
  destruct (filtered_run_collapses (mkState 0 [] [] [97%N]) 40%N _ H1 H2)
    as (E1 & E2 & _).
  rewrite E1, E2. by vm_compute.
Defined.

(** ** C6: sentence markers and the end of the stream *)

Lemma quiet_step s c : quiet c -> outputs (step s c) = outputs s.
Proof.
  intros [Hq1 Hq2]. unfold outputs.
  destruct (step_cases s c) as [(-> & -> & ->) | (_ & [H | H] & _)];
    [done | by destruct Hq1 | by destruct Hq2].
Qed.

Lemma quiet_foldl chunk s :
  Forall quiet chunk -> outputs (foldl step s chunk) = outputs s.
Proof.
  intros H. revert s. induction H as [|c chunk Hc _ IH]; intros s; simpl; [done|].
  rewrite IH. by apply quiet_step.
Qed.

Lemma quiet_scan_chunk chunk s :
  Forall quiet chunk -> outputs (scan_chunk chunk s) = outputs s.
Proof. intros H. unfold scan_chunk. by rewrite quiet_foldl. Qed.

Lemma quiet_read_loop fuel size chunk text s s' :
  Forall quiet chunk -> Forall quiet text ->
  read_loop fuel size chunk text s = Some s' -> outputs s' = outputs s.
Proof.
  revert chunk text s.
  induction fuel as [|fuel IH]; intros chunk text s Hc Ht; simpl; [discriminate|].
  destruct (0 <? length chunk).
  - intros H. apply IH in H; [| by apply Forall_take | by apply Forall_drop].
    rewrite H. by apply quiet_scan_chunk.
  - by intros [= <-].
Qed.

Lemma scan_chunk_app c1 c2 s :
  scan_chunk (c1 ++ c2) s = foldl step (scan_chunk c1 s) c2.
Proof. unfold scan_chunk. apply foldl_app. Qed.

Lemma read_loop_tail_ignored f2 :
  forall f1 size text tail s r1 r2,
    Forall quiet tail ->
    read_loop f1 size (take size (text ++ tail)) (drop size (text ++ tail)) s
    = Some r1 ->
    read_loop f2 size (take size text) (drop size text) s = Some r2 ->
    outputs r1 = outputs r2.
Proof.
  induction f2 as [|f2 IH]; intros f1 size text tail s r1 r2 Hq H1 H2;
    [discriminate|].
  simpl in H2. destruct (0 <? length (take size text)) eqn:E.
  - apply Nat.ltb_lt in E. rewrite length_take in E.
    destruct f1 as [|f1]; [discriminate|]. simpl in H1.
    assert (E' : (0 <? length (take size (text ++ tail))) = true).
    { apply Nat.ltb_lt. rewrite length_take, length_app. lia. }
    rewrite E' in H1. unfold read in H1, H2.
    destruct (decide (size <= length text)) as [Hle | Hgt].
    + rewrite take_app_le, drop_app_le in H1 by done.
      eapply IH; eauto.
    + rewrite (take_ge text size), (drop_ge text size) in H2 by lia.
      rewrite (take_app_ge text tail size), (drop_app_ge text tail size) in H1
        by lia.
      destruct f2 as [|f2]; [discriminate|].
      replace (take size []) with (@nil N) in H2 by (by destruct size).
      simpl in H2. injection H2 as <-.
      apply quiet_read_loop in H1;
        [| by apply Forall_take, Forall_drop | by do 2 apply Forall_drop].
      rewrite H1, scan_chunk_app. apply quiet_foldl. by apply Forall_take.
  - injection H2 as <-.
    apply Nat.ltb_ge in E. rewrite length_take in E.
    destruct text as [|a text].
    + simpl in H1. eapply quiet_read_loop; [| |exact H1];
        [by apply Forall_take | by apply Forall_drop].
    + destruct size as [|size]; [|simpl in E; lia].
      destruct f1 as [|f1]; [discriminate|]. simpl in H1. by injection H1 as <-.
Qed.

(** C6. A sentence marker always leaves the buffer empty, and when the
    buffer was not longer than the threshold nothing else changes: its
    content is dropped.  Nothing is done with the buffer when the stream
    ends: text after the last marker changes neither the submissions,
    nor the accumulator, nor the counter. *)
Theorem sentence_marker_resets_and_no_final_flush :
  (forall s c,
     classify c = SentenceMarker ->
     line_buff (step s c) = [] /\
     (length (line_buff s) <= LONG_ENOUGH -> step s c = set_line_buff [] s)) /\
  (forall size text tail,
     Forall (fun c => classify c <> ClauseMarker /\
                      classify c <> SentenceMarker) tail ->
     outputs (segment size (text ++ tail)) = outputs (segment size text)).
Proof.
  split.
  - intros s c Hc. apply classify_sentence in Hc as (Hb & Hcl & Hs).
    unfold step. rewrite Hb, Hcl, Hs. split; [done|].
    intros Hl. apply Nat.ltb_ge in Hl. by rewrite Hl.
  - intros size text tail Hq.
    pose proof (segment_opt_total size (text ++ tail)) as H1.
    pose proof (segment_opt_total size text) as H2.
    unfold segment_opt, read in H1, H2.
    eapply read_loop_tail_ignored; eauto.
Qed.

Lemma sentence_marker_resets_and_no_final_flush_witness :
  classify 46%N = SentenceMarker /\
  step (mkState 0 [] [] (pystr_of_string "too short")) 46%N
  = mkState 0 [] [] [] /\
  outputs (segment 10 (pystr_of_string
     "Hello. A tail that is long enough but never terminated"))
  = (0, [], []).
Proof.
  destruct sentence_marker_resets_and_no_final_flush as [Hs Ht].
  split; [by vm_compute|]. split.
  - destruct (Hs (mkState 0 [] [] (pystr_of_string "too short")) 46%N) as [_ H];
      [by vm_compute|].
    rewrite H; [by vm_compute | vm_compute; lia].
  - change (pystr_of_string
              "Hello. A tail that is long enough but never terminated")
      with (pystr_of_string "Hello." ++
            pystr_of_string " A tail that is long enough but never terminated").
    rewrite Ht; [by vm_compute|].
    set (t := pystr_of_string _). vm_compute in t. subst t.
    repeat (constructor; [by vm_compute|]). constructor.
Defined.

(** ** C1: chunk boundaries *)

(** With the persistent buffer of the design document, the chunk size does
    not matter: the chunks are scanned as one text. *)
Lemma spec_read_loop_whole fuel size text s :
  0 < size -> length text < fuel ->
  spec_read_loop fuel size (take size text) (drop size text) s
  = Some (foldl step s text).
Proof.
  intros Hsize. revert text s.
  induction fuel as [|fuel IH]; intros text s Hlt; [lia|].
  simpl. destruct (0 <? length (take size text)) eqn:E.
  - apply Nat.ltb_lt in E. rewrite length_take in E.
    unfold read, spec_feed. rewrite IH.
    + by rewrite <- foldl_app, take_drop.
    + rewrite length_drop. lia.
  - apply Nat.ltb_ge in E. rewrite length_take in E.
    destruct text; [done | simpl in E; lia].
Qed.

Lemma spec_segment_chunk_transparent size text :
  0 < size -> spec_segment size text = foldl step init_state text.
Proof.
  intros Hsize. unfold spec_segment, read.
  rewrite spec_read_loop_whole by (done || lia). done.
Qed.

(** A text that fits in one chunk is scanned as the design says. *)
Lemma segment_single_chunk size text :
  length text <= size -> segment size text = foldl step init_state text.
Proof.
  intros Hle. unfold segment, segment_opt, read.
  rewrite take_ge, drop_ge by done.
  destruct text as [|c text]; [by destruct size|].
  simpl. by destruct size.
Qed.

(** More fuel does not change what the loop returns. *)
Lemma read_loop_more_fuel f : forall f' size chunk text s r,
  read_loop f size chunk text s = Some r -> f <= f' ->
  read_loop f' size chunk text s = Some r.
Proof.
  induction f as [|f IH]; intros f' size chunk text s r; [discriminate|].
  intros E Hle. destruct f' as [|f']; [lia|].
  cbn [read_loop] in E |- *. destruct (0 <? length chunk); [|exact E].
  unfold read in E |- *. apply (IH f'); [exact E | lia].
Qed.

(** Ordinary characters are appended to the buffer. *)
Lemma foldl_step_ordinary (l : list N) : forall s,
  Forall (fun c => classify c = Ordinary) l ->
  foldl step s l = set_line_buff (line_buff s ++ l) s.
Proof.
  induction l as [|c l IH]; intros s Hl.
  - cbn [foldl]. rewrite app_nil_r. by destruct s.
  - apply Forall_cons in Hl as [Hc Hl]. cbn [foldl]. rewrite (IH _ Hl).
    apply classify_ordinary in Hc as (Hb & Hcl & Hs).
    unfold step. rewrite Hb, Hcl, Hs.
    unfold set_line_buff. cbn [line_no ultimate_text futures line_buff].
    by rewrite <- app_assoc.
Qed.

(** A sentence marker submits a long buffer and empties it. *)
Lemma step_sentence_marker s c :
  classify c = SentenceMarker ->
  step s c = set_line_buff []
               (if LONG_ENOUGH <? length (line_buff s) then submit s else s).
Proof.
  intros Hc. apply classify_sentence in Hc as (Hb & Hcl & Hs).
  unfold step. by rewrite Hb, Hcl, Hs.
Qed.

(** C1 fails on the code: [line_buff] is cleared at the head of every turn
    of the [while] loop, so what was buffered when a chunk ended is lost.
    A sentence of 10005 letters followed by a period is submitted when it
    is read as one chunk, and by the persistent-buffer segmenter at the
    reference chunk size, but [process_text_stream] with [CHUNK_SIZE]
    submits nothing: the period arrives in the second chunk, after only
    five letters. *)
Theorem chunk_boundary_drops_buffer :
  let sentence := replicate 9995 97%N ++ replicate 10 98%N in
  let text := sentence ++ [46%N] in
  futures (segment CHUNK_SIZE text) = [] /\
  futures (segment (length text) text) = [(0, sentence)] /\
  futures (spec_segment CHUNK_SIZE text) = [(0, sentence)].
Proof.
  cbv zeta.
  assert (Ha : classify 97%N = Ordinary) by (vm_compute; reflexivity).
  assert (Hb : classify 98%N = Ordinary) by (vm_compute; reflexivity).
  assert (Hdot : classify 46%N = SentenceMarker) by (vm_compute; reflexivity).
  assert (Hletters : forall n m,
            Forall (fun c => classify c = Ordinary)
                   (replicate n 97%N ++ replicate m 98%N)).
  { intros n m. apply Forall_app.
    split; apply Forall_forall; intros c [-> _]%elem_of_replicate; done. }
  assert (Hwhole :
    futures (foldl step init_state
               ((replicate 9995 97%N ++ replicate 10 98%N) ++ [46%N]))
    = [(0, replicate 9995 97%N ++ replicate 10 98%N)]).
  { rewrite foldl_app, (foldl_step_ordinary _ _ (Hletters _ _)).
    cbn [foldl]. rewrite (step_sentence_marker _ _ Hdot).
    cbn [set_line_buff line_buff init_state line_no ultimate_text futures app].
    replace (LONG_ENOUGH <?
             length (replicate 9995 97%N ++ replicate 10 98%N)) with true.
    - reflexivity.
    - rewrite length_app, !length_replicate. reflexivity. }
  assert (Hb5 : Forall (fun c => classify c = Ordinary) (replicate 5 98%N)).
  { apply Forall_forall. by intros c [-> _]%elem_of_replicate. }
  assert (Hscan :
    scan_chunk (replicate 5 98%N ++ [46%N])
      (scan_chunk (replicate 9995 97%N ++ replicate 5 98%N) init_state)
    = init_state).
  { unfold scan_chunk.
    rewrite (foldl_step_ordinary _ _ (Hletters 9995 5)).
    rewrite foldl_app, (foldl_step_ordinary _ _ Hb5).
    cbn [foldl]. rewrite (step_sentence_marker _ _ Hdot).
    cbn [set_line_buff line_buff line_no ultimate_text futures init_state app].
    reflexivity. }
  split; [|split].
  - unfold segment, segment_opt, read.
    set (text := (replicate 9995 97%N ++ replicate 10 98%N) ++ [46%N]).
    assert (E1 : take CHUNK_SIZE text
                 = replicate 9995 97%N ++ replicate 5 98%N)
      by reflexivity.
    assert (E2 : drop CHUNK_SIZE text = replicate 5 98%N ++ [46%N])
      by reflexivity.
    rewrite E1, E2.
    rewrite (read_loop_more_fuel 3 (S (length text)) _ _ _ _ init_state);
      [reflexivity| |].
    + cbn [read_loop].
      replace (0 <? length (replicate 9995 97%N ++ replicate 5 98%N))
        with true
        by (rewrite length_app, !length_replicate; reflexivity).
      unfold read.
      rewrite (take_ge (replicate 5 98%N ++ [46%N])),
              (drop_ge (replicate 5 98%N ++ [46%N]))
        by (apply Nat.leb_le; reflexivity).
      replace (0 <? length (replicate 5 98%N ++ [46%N])) with true
        by reflexivity.
      replace (take CHUNK_SIZE []) with (@nil N) by reflexivity.
      cbn [length Nat.ltb Nat.leb].
      by rewrite Hscan.
    + subst text. rewrite !length_app, !length_replicate.
      apply Nat.leb_le. reflexivity.
  - rewrite segment_single_chunk by done. exact Hwhole.
  - rewrite spec_segment_chunk_transparent
      by (apply Nat.ltb_lt; reflexivity).
    exact Hwhole.
Qed.

(** The chunked scenario of the design document, with chunks of ten
    characters: nothing can ever be submitted, since no buffer grows
    beyond ten characters. *)
Example ten_character_chunks :
  let text := pystr_of_string
    "Hello, world. This is a test sentence that is definitely long enough!" in
  futures (segment 10 text) = [] /\
  futures (spec_segment 10 text)
  = [(0, pystr_of_string
           " This is a test sentence that is definitely long enough")].
Proof. cbv zeta. split; vm_compute; reflexivity. Qed.

(** ** C9: what one unit of work writes *)

Section Worker.
Context `{Collaborators}.

(** A unit either fails and leaves the store as it found it, or succeeds
    and appends one phrase row built from its arguments. *)
Lemma run_unit_effect source_id call db :
  (exists e, run_unit source_id call db = (db, inl e)) \/
  (exists p,
     run_unit source_id call db
     = (mkDatabase (sources db) (phrases db ++ [p]), inr tt) /\
     raw p = call.2 /\ phrase_line_no p = call.1 /\
     phrase_source p = source_id).
Proof.
  unfold run_unit, process_line, bind, query_source_one, session_add,
    session_commit, lift, raise, ret. simpl.
  destruct (sources db !! source_id); [|left; eauto].
  destruct (stem_sentence call.2); simpl; [left; eauto|].
  destruct (nlp_rhyme_sound call.2); simpl; [left; eauto|].
  destruct (count_syllables call.2); simpl; [left; eauto|].
  destruct (has_alliteration call.2); simpl; [left; eauto|].
  destruct (commit_fault _); simpl; [left; eauto|].
  right. eexists. split; [reflexivity|]. simpl. auto.
Qed.

Lemma run_unit_missing_source source_id call db :
  sources db !! source_id = None ->
  run_unit source_id call db = (db, inl NoResultFound).
Proof.
  intros Hs. unfold run_unit, process_line, bind, query_source_one.
  simpl. by rewrite Hs.
Qed.

(** C9. A unit of work that succeeds has made exactly one write, the
    phrase row of its line; a unit that fails, whatever raised, has
    written nothing. *)
Theorem process_line_writes_once_or_never source_id line_no line db :
  match run_unit source_id (line_no, line) db with
  | (db', inr _) =>
      exists p, db' = mkDatabase (sources db) (phrases db ++ [p]) /\
                raw p = line /\ phrase_line_no p = line_no /\
                phrase_source p = source_id
  | (db', inl _) => db' = db
  end.
Proof.
  destruct (run_unit_effect source_id (line_no, line) db)
    as [[e ->] | (p & -> & Hp)]; [done|].
  by exists p.
Qed.

(** ** C3: a failing unit *)

Lemma run_pool_snoc exec i source_id futs db :
  run_pool (exec ++ [i]) source_id futs db =
  let acc := run_pool exec source_id futs db in
  match futs !! i with
  | Some call =>
      let '(db', r) := run_unit source_id call acc.1 in
      (db', <[i := r]> acc.2)
  | None => acc
  end.
Proof. unfold run_pool. by rewrite foldl_app. Qed.

(** The pool never touches the source rows and never removes a phrase. *)
Lemma run_pool_store exec source_id futs db :
  sources (run_pool exec source_id futs db).1 = sources db /\
  phrases db `prefix_of` phrases (run_pool exec source_id futs db).1.
Proof.
  induction exec as [|i exec IH] using rev_ind; [done|].
  rewrite run_pool_snoc. cbv zeta.
  destruct IH as [IHs IHp].
  destruct (futs !! i) as [call|]; [|done].
  destruct (run_unit_effect source_id call (run_pool exec source_id futs db).1)
    as [[e ->] | (p & -> & _)]; simpl; [done|].
  split; [done|]. etrans; [exact IHp|]. by apply prefix_app_r.
Qed.

(** Every future that was run has a result. *)
Lemma run_pool_has_result exec source_id futs db i :
  i ∈ exec -> i < length futs ->
  is_Some ((run_pool exec source_id futs db).2 !! i).
Proof.
  intros Hi Hlt.
  induction exec as [|k exec IH] using rev_ind; [by apply elem_of_nil in Hi|].
  rewrite run_pool_snoc. cbv zeta.
  destruct (decide (i = k)) as [<- | Hne].
  - destruct (lookup_lt_is_Some_2 futs i Hlt) as [call ->].
    destruct (run_unit _ _ _) as [db' r]. simpl.
    rewrite lookup_insert_eq. eauto.
  - apply elem_of_app in Hi as [Hi | Hi];
      [| apply list_elem_of_singleton in Hi; congruence].
    destruct (futs !! k) as [call|]; [|by apply IH].
    destruct (run_unit _ _ _) as [db' r]. simpl.
    rewrite lookup_insert_ne by done. by apply IH.
Qed.

(** The phrase of a unit whose future reports success is in the store. *)
Lemma run_pool_success_written exec source_id futs db i call :
  futs !! i = Some call ->
  (run_pool exec source_id futs db).2 !! i = Some (inr tt) ->
  exists p, p ∈ phrases (run_pool exec source_id futs db).1 /\
            raw p = call.2 /\ phrase_line_no p = call.1 /\
            phrase_source p = source_id.
Proof.
  intros Hcall.
  induction exec as [|k exec IH] using rev_ind.
  { unfold run_pool. simpl. by rewrite lookup_empty. }
  rewrite run_pool_snoc. cbv zeta.
  destruct (futs !! k) as [callk|] eqn:Hk; [|exact IH].
  destruct (run_unit_effect source_id callk (run_pool exec source_id futs db).1)
    as [[e ->] | (p & -> & Hp)]; simpl.
  - destruct (decide (k = i)) as [-> | Hne].
    + by rewrite lookup_insert_eq.
    + rewrite lookup_insert_ne by done. exact IH.
  - destruct (decide (k = i)) as [-> | Hne].
    + intros _. exists p. split; [apply elem_of_app; right; left|].
      by replace call with callk by congruence.
    + rewrite lookup_insert_ne by done. intros Hr.
      destruct (IH Hr) as (q & Hq & Hq'). exists q.
      split; [|done]. apply elem_of_app. by left.
Qed.

(** The barrier raises the first exception in completion order. *)
Lemma first_exception_Some completion results i e :
  i ∈ completion -> results !! i = Some (inl e) ->
  exists pre k post e',
    completion = pre ++ k :: post /\
    Forall (fun j => forall e'', results !! j <> Some (inl e'')) pre /\
    results !! k = Some (inl e') /\
    first_exception completion results = Some e'.
Proof.
  intros Hi He.
  induction completion as [|k completion IH]; [by apply elem_of_nil in Hi|].
  simpl. destruct (results !! k) as [[ek | []]|] eqn:Hk.
  - exists [], k, completion, ek. by repeat split.
  - assert (Hi' : i ∈ completion).
    { apply elem_of_cons in Hi as [-> | Hi]; [congruence | done]. }
    destruct (IH Hi') as (pre & k' & post & e' & -> & Hpre & Hk' & Hf).
    exists (k :: pre), k', post, e'. repeat split; try done.
    constructor; [|done]. intros e''. congruence.
  - assert (Hi' : i ∈ completion).
    { apply elem_of_cons in Hi as [-> | Hi]; [congruence | done]. }
    destruct (IH Hi') as (pre & k' & post & e' & -> & Hpre & Hk' & Hf).
    exists (k :: pre), k', post, e'. repeat split; try done.
    constructor; [|done]. intros e''. congruence.
Qed.

(** Only futures that were run have a result. *)
Lemma run_pool_result_dom exec source_id futs db i r :
  (run_pool exec source_id futs db).2 !! i = Some r -> i ∈ exec.
Proof.
  induction exec as [|k exec IH] using rev_ind.
  { unfold run_pool. simpl. by rewrite lookup_empty. }
  rewrite run_pool_snoc. cbv zeta. intros Hr.
  apply elem_of_app.
  destruct (decide (i = k)) as [-> | Hne]; [right; left|].
  left. apply IH.
  destruct (futs !! k) as [call|]; [|done].
  destruct (run_unit _ _ _) as [db' r']. simpl in Hr.
  by rewrite lookup_insert_ne in Hr.
Qed.

(** C3. Suppose the first commit of the source goes through, the pool
    runs every submitted call once and [as_completed] yields every
    future once, and some call raised.  Then [process_text_stream]
    raises the exception of the first failed future in completion
    order, every future before it having succeeded; the phrase of every
    call that succeeded, before or after the failure, is in the store;
    and the content of the source is still the empty string written at
    the start, not the accumulated text. *)
Theorem first_worker_error_is_raised exec completion source_id text w :
  let st := segment CHUNK_SIZE text in
  let db0 :=
    foldl apply_row (durable w) (pending w ++ [SourceRow source_id []]) in
  let pool := run_pool exec source_id (futures st) db0 in
  commit_fault (pending w ++ [SourceRow source_id []]) = None ->
  exec ≡ₚ seq 0 (length (futures st)) ->
  completion ≡ₚ seq 0 (length (futures st)) ->
  (exists i e, pool.2 !! i = Some (inl e)) ->
  exists pre k post e,
    completion = pre ++ k :: post /\
    Forall (fun j => pool.2 !! j = Some (inr tt)) pre /\
    pool.2 !! k = Some (inl e) /\
    process_text_stream exec completion source_id text w
    = (mkWorld pool.1 [], inl e) /\
    (forall j call,
       futures st !! j = Some call -> pool.2 !! j = Some (inr tt) ->
       exists p, p ∈ phrases pool.1 /\ raw p = call.2 /\
                 phrase_line_no p = call.1 /\ phrase_source p = source_id) /\
    sources pool.1 !! source_id = Some [].
Proof.
  intros st db0 pool.
  assert (Hst : segment CHUNK_SIZE text = st) by reflexivity.
  assert (Hpool : run_pool exec source_id (futures st) db0 = pool)
    by reflexivity.
  clearbody pool st.
  intros Hcommit Hexec Hcompl (i & e & Hi).
  assert (Hin : i ∈ completion).
  { rewrite Hcompl, <- Hexec. rewrite <- Hpool in Hi.
    eapply run_pool_result_dom. exact Hi. }
  destruct (first_exception_Some completion pool.2 i e Hin Hi)
    as (pre & k & post & e' & Hsplit & Hpre & Hk & Hfirst).
  exists pre, k, post, e'. split; [exact Hsplit|].
  split; [|split; [exact Hk|split; [|split]]].
  - apply Forall_forall. intros j Hj.
    assert (Hjc : j ∈ completion).
    { rewrite Hsplit. apply elem_of_app. by left. }
    assert (Hjs : j ∈ seq 0 (length (futures st))) by by rewrite <- Hcompl.
    assert (Hje : j ∈ exec) by by rewrite Hexec.
    apply elem_of_seq in Hjs.
    destruct (run_pool_has_result exec source_id (futures st) db0 j Hje)
      as [r Hr]; [lia|].
    rewrite Hpool in Hr. rewrite Forall_forall in Hpre.
    destruct r as [e'' | []]; [|exact Hr].
    by destruct (Hpre j Hj e'').
  - unfold process_text_stream, bind, session_add, session_commit, raise.
    cbn [durable pending]. rewrite Hcommit, Hst. cbn [durable pending].
    fold db0. rewrite Hpool.
    destruct pool as [db1 results]. cbn [fst snd] in *.
    by rewrite Hfirst.
  - intros j call Hcall Hr. rewrite <- Hpool in Hr |- *.
    by apply (run_pool_success_written exec source_id (futures st) db0 j).
  - destruct (run_pool_store exec source_id (futures st) db0) as [Hs _].
    rewrite Hpool in Hs. rewrite Hs. unfold db0.
    rewrite foldl_app. simpl. apply lookup_insert_eq.
Qed.
End Worker.

Lemma first_worker_error_is_raised_witness :
  let w := mkWorld (mkDatabase ∅ []) [] in
  let pool :=
    run_pool (H := second_unit_fails) [0; 1; 2] 7%Z
      (futures (segment CHUNK_SIZE three_clauses))
      (mkDatabase {[ 7%Z := [] ]} []) in
  pool.2 !! 1 = Some (inl (StorageError 0)) /\
  exists e,
    process_text_stream (H := second_unit_fails)
      [0; 1; 2] [2; 1; 0] 7%Z three_clauses w
    = (mkWorld pool.1 [], inl e) /\
    sources pool.1 !! 7%Z = Some [].
Proof.
  cbv zeta.
  assert (Hseq : seq 0 (length (futures (segment CHUNK_SIZE three_clauses)))
                 = [0; 1; 2]) by (vm_compute; reflexivity).
  split; [vm_compute; reflexivity|].
  destruct (first_worker_error_is_raised (H := second_unit_fails)
              [0; 1; 2] [2; 1; 0] 7%Z three_clauses
              (mkWorld (mkDatabase ∅ []) []))
    as (pre & k & post & e & _ & _ & _ & Hraise & _ & Hsrc).
  - reflexivity.
  - by rewrite Hseq.
  - rewrite Hseq. solve_Permutation.
  - exists 1, (StorageError 0). vm_compute. reflexivity.
  - exists e. split; [exact Hraise | exact Hsrc].
Defined.

(** * Further properties of the module *)

(** * The batch pipeline *)

(** ** Python string operations *)

Lemma startswith_app s sub :
  startswith s sub = true <-> exists rest, s = sub ++ rest.
Proof.
  revert s. induction sub as [|p sub IH]; intros s; simpl.
  - split; [intros _; by exists s | intros _; reflexivity].
  - destruct s as [|c s]; [split; [done | intros [rest Hr]; discriminate]|].
    rewrite andb_true_iff, bool_decide_eq_true, IH. split.
    + intros [-> [rest ->]]. by exists rest.
    + intros [rest [= -> ->]]. split; [done | by exists rest].
Qed.

Lemma py_count_char (s : list N) c : py_count s [c] = length (filter (fun x => x = c) s).
Proof.
  unfold py_count. induction s as [|x s IH]; [done|].
  cbn [count_from startswith length Nat.sub]. rewrite andb_true_r.
  rewrite filter_cons. destruct (decide (x = c)) as [Hx | Hx].
  - rewrite bool_decide_eq_true_2 by done. simpl. by rewrite IH.
  - rewrite bool_decide_eq_false_2 by done. exact IH.
Qed.

Lemma py_remove_char (s : list N) c : py_remove s [c] = filter (fun x => x <> c) s.
Proof.
  unfold py_remove. induction s as [|x s IH]; [done|].
  cbn [remove_from startswith length Nat.sub]. rewrite andb_true_r.
  rewrite filter_cons. destruct (decide (x = c)) as [Hx | Hx].
  - rewrite bool_decide_eq_true_2 by done.
    destruct (decide (x <> c)); [done | exact IH].
  - rewrite bool_decide_eq_false_2 by done.
    destruct (decide (x <> c)); [by rewrite IH | done].
Qed.

Lemma remove_from_sublist sub skip s : remove_from sub skip s `sublist_of` s.
Proof.
  revert skip. induction s as [|c s IH]; intros skip; simpl; [done|].
  destruct skip as [|k]; [|by apply sublist_cons].
  destruct (startswith (c :: s) sub); [by apply sublist_cons|].
  by apply sublist_skip.
Qed.

Lemma py_remove_sublist s sub : py_remove s sub `sublist_of` s.
Proof. destruct sub; [done | apply remove_from_sublist]. Qed.

Lemma lstrip_suffix s : lstrip s `suffix_of` s.
Proof.
  induction s as [|c s IH]; simpl; [done|].
  destruct (isspace c); [by apply suffix_cons_r | done].
Qed.

Lemma rstrip_prefix s : rstrip s `prefix_of` s.
Proof.
  unfold rstrip. destruct (lstrip_suffix (reverse s)) as [k Hk].
  exists (reverse k). apply (inj reverse).
  by rewrite reverse_app, !reverse_involutive.
Qed.

(** Deleting occurrences of [sub] does not touch the characters that
    satisfy [P] when no character of [sub] does. *)
Lemma remove_from_filter (P : N -> Prop) `{!forall x, Decision (P x)}
  sub skip (s : list N) :
  sub <> [] ->
  Forall (fun x => ~ P x) sub ->
  Forall (fun x => ~ P x) (take skip s) ->
  filter P (remove_from sub skip s) = filter P s.
Proof.
  unfold pystr. intros Hne Hsub. revert skip.
  induction s as [|c s IH]; intros skip Hskip; [done|].
  destruct skip as [|k]; cbn [remove_from].
  - destruct (startswith (c :: s) sub) eqn:E.
    + apply startswith_app in E as [rest E].
      destruct sub as [|p sub]; [done|].
      simpl in E. injection E as -> ->.
      apply Forall_cons in Hsub as [Hp Hsub].
      rewrite filter_cons_False by done.
      apply IH. simpl. rewrite Nat.sub_0_r.
      by rewrite take_app_length.
    + rewrite !filter_cons. rewrite IH by constructor. done.
  - simpl in Hskip. apply Forall_cons in Hskip as [Hc Hskip].
    rewrite filter_cons_False by done. by apply IH.
Qed.

Lemma py_remove_filter (P : N -> Prop) `{!forall x, Decision (P x)}
  (s : list N) sub :
  Forall (fun x => ~ P x) sub ->
  filter P (py_remove s sub) = filter P s.
Proof.
  unfold pystr. intros Hsub. destruct sub as [|p sub]; [done|].
  apply remove_from_filter; [done | done | constructor].
Qed.

Lemma lstrip_filter (P : N -> Prop) `{!forall x, Decision (P x)}
  (s : list N) :
  (forall x, P x -> isspace x = false) ->
  filter P (lstrip s) = filter P s.
Proof.
  unfold pystr. intros HP. induction s as [|c s IH]; [done|]. simpl.
  destruct (isspace c) eqn:E; [|done].
  rewrite filter_cons_False; [done|].
  intros Hc. apply HP in Hc. congruence.
Qed.

Lemma rstrip_filter (P : N -> Prop) `{!forall x, Decision (P x)}
  (s : list N) :
  (forall x, P x -> isspace x = false) ->
  filter P (rstrip s) = filter P s.
Proof.
  unfold pystr. intros HP. unfold rstrip.
  rewrite filter_reverse, lstrip_filter, <- filter_reverse by done.
  by rewrite reverse_involutive.
Qed.

(** ** [pre_process_text] *)

Lemma collapse_whitespace_idempotent b (s : list N) :
  collapse_whitespace b (collapse_whitespace b s) = collapse_whitespace b s.
Proof.
  revert b. induction s as [|c s IH]; intros b; [done|]. simpl.
  destruct (isspace c) eqn:E.
  - destruct b; [apply IH|].
    simpl. change (isspace space) with true. cbn iota. by rewrite IH.
  - simpl. rewrite E. by rewrite IH.
Qed.

(** Collapsing whitespace a second time changes nothing. *)
Theorem pre_process_text_idempotent raw_text :
  pre_process_text (pre_process_text raw_text) = pre_process_text raw_text.
Proof. apply collapse_whitespace_idempotent. Qed.

Lemma collapse_whitespace_keeps b (s : list N) :
  filter (fun c => isspace c = false) (collapse_whitespace b s)
  = filter (fun c => isspace c = false) s.
Proof.
  unfold pystr. revert b. induction s as [|c s IH]; intros b; [done|]. simpl.
  destruct (isspace c) eqn:E.
  - rewrite (filter_cons_False _ c) by congruence.
    destruct b; [apply IH|].
    rewrite filter_cons_False by (by vm_compute). apply IH.
  - rewrite !filter_cons_True by done. by rewrite IH.
Qed.

Lemma collapse_whitespace_length b (s : list N) :
  length (collapse_whitespace b s) <= length s.
Proof.
  revert b. induction s as [|c s IH]; intros b; simpl; [done|].
  pose proof (IH true). pose proof (IH false).
  destruct (isspace c); [destruct b|]; simpl; lia.
Qed.

(** [pre_process_text] keeps every character that is not whitespace, in
    order, adds none, and never makes the text longer. *)
Theorem pre_process_text_keeps_words (raw_text : list N) :
  filter (fun c => isspace c = false) (pre_process_text raw_text)
  = filter (fun c => isspace c = false) raw_text /\
  length (pre_process_text raw_text) <= length raw_text.
Proof.
  split; [apply collapse_whitespace_keeps | apply collapse_whitespace_length].
Qed.

Lemma collapse_whitespace_head (s : list N) c :
  head (collapse_whitespace true s) = Some c -> isspace c = false.
Proof.
  induction s as [|x s IH]; simpl; [done|].
  destruct (isspace x) eqn:E; [exact IH|]. simpl. by intros [= <-].
Qed.

Lemma collapse_whitespace_runs b (s : list N) i c :
  collapse_whitespace b s !! i = Some c -> isspace c = true ->
  c = space /\
  (forall d, collapse_whitespace b s !! S i = Some d -> isspace d = false).
Proof.
  revert b i. induction s as [|x s IH]; intros b i; simpl; [done|].
  destruct (isspace x) eqn:E.
  - destruct b; [by apply IH|].
    destruct i as [|i]; simpl.
    + intros [= <-] _. split; [done|]. intros d Hd.
      apply (collapse_whitespace_head s). by rewrite head_lookup.
    + by apply IH.
  - destruct i as [|i]; simpl; [|by apply IH].
    intros [= <-] Hc. congruence.
Qed.

(** In the result of [pre_process_text] every whitespace character is a
    space and the character after it, if any, is not whitespace. *)
Theorem pre_process_text_single_spaces (raw_text : list N) i c :
  pre_process_text raw_text !! i = Some c -> isspace c = true ->
  c = space /\
  (forall d, pre_process_text raw_text !! S i = Some d -> isspace d = false).
Proof. apply collapse_whitespace_runs. Qed.

Lemma pre_process_text_single_spaces_witness :
  pre_process_text [97%N; 9%N; 10%N; 32%N; 98%N] !! 1 = Some 32%N /\
  32%N = space /\
  (forall d, pre_process_text [97%N; 9%N; 10%N; 32%N; 98%N] !! 2 = Some d ->
             isspace d = false).
Proof.
  split; [reflexivity|].
  apply (pre_process_text_single_spaces [97%N; 9%N; 10%N; 32%N; 98%N] 1 32%N);
    reflexivity.
Defined.

(** ** [pre_process_sentence] *)

Lemma prefix_sublist (l k : list N) : l `prefix_of` k -> l `sublist_of` k.
Proof. intros [m ->]. by apply sublist_inserts_r. Qed.

Lemma suffix_sublist (l k : list N) : l `suffix_of` k -> l `sublist_of` k.
Proof. intros [m ->]. by apply sublist_inserts_l. Qed.

Lemma strip_dangling_sublist (s : list N) lr :
  strip_dangling s lr `sublist_of` s.
Proof.
  destruct lr as [l r]. unfold strip_dangling.
  destruct ((py_count s [l] =? 1) && (py_count s [r] =? 0));
    destruct (_ && _);
    repeat (etrans; [apply py_remove_sublist|]); done.
Qed.

Lemma strip_dangling_filter (P : N -> Prop) `{!forall x, Decision (P x)}
  (s : list N) lr :
  ~ P lr.1 -> ~ P lr.2 ->
  filter P (strip_dangling s lr) = filter P s.
Proof.
  destruct lr as [l r]. cbn [fst snd]. intros Hl Hr. unfold strip_dangling.
  destruct ((py_count s [l] =? 1) && (py_count s [r] =? 0));
    destruct (_ && _);
    rewrite ?py_remove_filter by (by repeat constructor); done.
Qed.

Lemma filter_eq_ne_nil (s : list N) c :
  filter (fun x => x = c) (filter (fun x => x <> c) s) = [].
Proof.
  induction s as [|x s IH]; [done|].
  rewrite (filter_cons (fun x => x <> c)).
  destruct (decide (x <> c)); [|done].
  by rewrite filter_cons_False.
Qed.

Lemma filter_eq_ne_other (s : list N) c d :
  c <> d ->
  filter (fun x => x = c) (filter (fun x => x <> d) s)
  = filter (fun x => x = c) s.
Proof.
  intros Hcd. rewrite <- py_remove_char.
  apply py_remove_filter. repeat constructor. congruence.
Qed.

(** Once a pair has been handled, the sentence does not hold exactly one
    of its brackets without the other. *)
Lemma strip_dangling_post (s : list N) l r :
  l <> r ->
  let s' := strip_dangling s (l, r) in
  ~ (py_count s' [l] = 1 /\ py_count s' [r] = 0) /\
  ~ (py_count s' [r] = 1 /\ py_count s' [l] = 0).
Proof.
  intros Hlr. cbv zeta. unfold strip_dangling.
  assert (Hll : py_count (py_remove s [l]) [l] = 0).
  { by rewrite py_count_char, py_remove_char, filter_eq_ne_nil. }
  assert (Hrr : py_count (py_remove s [r]) [r] = 0).
  { by rewrite py_count_char, py_remove_char, filter_eq_ne_nil. }
  assert (Hlr' : py_count (py_remove s [l]) [r] = py_count s [r]).
  { rewrite !py_count_char, py_remove_char.
    apply f_equal, filter_eq_ne_other. congruence. }
  assert (Hrl' : py_count (py_remove s [r]) [l] = py_count s [l]).
  { rewrite !py_count_char, py_remove_char.
    apply f_equal, filter_eq_ne_other. congruence. }
  destruct ((py_count s [l] =? 1) && (py_count s [r] =? 0)) eqn:E1.
  - apply andb_true_iff in E1 as [_ E1]. apply Nat.eqb_eq in E1.
    rewrite Hll, Hlr', E1. cbn [Nat.eqb andb]. rewrite Hll, Hlr'. lia.
  - destruct ((py_count s [r] =? 1) && (py_count s [l] =? 0)) eqn:E2.
    + apply andb_true_iff in E2 as [_ E2]. apply Nat.eqb_eq in E2.
      rewrite Hrr, Hrl'. lia.
    + apply andb_false_iff in E1. apply andb_false_iff in E2.
      rewrite !Nat.eqb_neq in E1, E2. lia.
Qed.

Lemma foldl_strip_dangling_sublist later (s : list N) :
  foldl strip_dangling s later `sublist_of` s.
Proof.
  revert s. induction later as [|lr later IH]; intros s; cbn [foldl]; [done|].
  etrans; [apply IH | apply strip_dangling_sublist].
Qed.

Lemma foldl_strip_dangling_filter (P : N -> Prop) `{!forall x, Decision (P x)}
  later (s : list N) :
  Forall (fun lr => ~ P lr.1 /\ ~ P lr.2) later ->
  filter P (foldl strip_dangling s later) = filter P s.
Proof.
  intros HF. revert s. induction HF as [|lr later [H1 H2] _ IH]; intros s;
    cbn [foldl]; [done|].
  rewrite IH. by apply strip_dangling_filter.
Qed.

Lemma foldl_py_remove_sublist subs (s : list N) :
  foldl py_remove s subs `sublist_of` s.
Proof.
  revert s. induction subs as [|sub subs IH]; intros s; cbn [foldl]; [done|].
  etrans; [apply IH | apply py_remove_sublist].
Qed.

Lemma foldl_py_remove_filter (P : N -> Prop) `{!forall x, Decision (P x)}
  subs (s : list N) :
  Forall (Forall (fun x => ~ P x)) subs ->
  filter P (foldl py_remove s subs) = filter P s.
Proof.
  intros HF. revert s. induction HF as [|sub subs Hsub _ IH]; intros s;
    cbn [foldl]; [done|].
  rewrite IH. by apply py_remove_filter.
Qed.

Lemma foldl_py_remove_absent subs (s : list N) c :
  [c] ∈ subs -> c ∉ foldl py_remove s subs.
Proof.
  revert s. induction subs as [|sub subs IH]; intros s Hc;
    [by apply elem_of_nil in Hc|].
  cbn [foldl]. apply elem_of_cons in Hc as [<- | Hc]; [|by apply IH].
  intros Hin.
  pose proof (elem_of_sublist _ _ _ Hin
                (foldl_py_remove_sublist subs (py_remove s [c]))) as Hin'.
  rewrite py_remove_char in Hin'.
  apply list_elem_of_filter in Hin' as [Hne _]. done.
Qed.

(** [pre_process_sentence] only deletes characters: what it returns is
    the sentence with some characters left out, in the same order. *)
Theorem pre_process_sentence_only_deletes (sentence : list N) :
  pre_process_sentence sentence `sublist_of` sentence.
Proof.
  unfold pre_process_sentence.
  etrans; [apply suffix_sublist, lstrip_suffix|].
  etrans; [apply prefix_sublist, rstrip_prefix|].
  etrans; [apply foldl_py_remove_sublist|].
  etrans; [apply foldl_strip_dangling_sublist|].
  destruct (_ =? 1); [apply py_remove_sublist | done].
Qed.

(** No character that [bad_substrings] lists as a one-character string
    (backtick, curly and angle quotation marks, backslash) is left in the
    result. *)
Theorem pre_process_sentence_drops_bad_characters (sentence : list N) c :
  [c] ∈ bad_substrings -> c ∉ pre_process_sentence sentence.
Proof.
  intros Hc Hin. unfold pre_process_sentence in Hin.
  eapply foldl_py_remove_absent; [exact Hc|].
  eapply elem_of_sublist; [exact Hin|].
  etrans; [apply suffix_sublist, lstrip_suffix|].
  apply prefix_sublist, rstrip_prefix.
Qed.

Lemma pre_process_sentence_drops_bad_characters_witness :
  [92%N] ∈ bad_substrings /\
  92%N ∉ pre_process_sentence [97%N; 92%N; 39%N; 92%N; 39%N; 98%N].
Proof.
  assert (H : [92%N] ∈ bad_substrings).
  { unfold bad_substrings. repeat first [left | right]. }
  split; [exact H|].
  by apply pre_process_sentence_drops_bad_characters.
Defined.

Lemma lstrip_head (s : list N) c :
  head (lstrip s) = Some c -> isspace c = false.
Proof.
  induction s as [|x s IH]; simpl; [done|].
  destruct (isspace x) eqn:E; [exact IH|]. simpl. by intros [= <-].
Qed.

Lemma lstrip_id (s : list N) :
  (forall c, head s = Some c -> isspace c = false) -> lstrip s = s.
Proof.
  destruct s as [|x s]; simpl; [done|]. intros H. by rewrite (H x).
Qed.

Lemma rstrip_id (s : list N) :
  (forall c, last s = Some c -> isspace c = false) -> rstrip s = s.
Proof.
  intros H. unfold rstrip. rewrite lstrip_id.
  - apply reverse_involutive.
  - intros c. rewrite head_reverse. apply H.
Qed.

Lemma last_lstrip (s : list N) c :
  last (lstrip s) = Some c -> last s = Some c.
Proof.
  induction s as [|x s IH]; simpl; [done|].
  destruct (isspace x); [|done].
  intros H. rewrite last_cons, (IH H). done.
Qed.

Lemma last_rstrip (s : list N) c :
  last (rstrip s) = Some c -> isspace c = false.
Proof. unfold rstrip. rewrite last_reverse. apply lstrip_head. Qed.

(** The result of [pre_process_sentence] neither starts nor ends with
    whitespace: stripping it again, on either side, changes nothing. *)
Theorem pre_process_sentence_is_stripped (sentence : list N) :
  lstrip (pre_process_sentence sentence) = pre_process_sentence sentence /\
  rstrip (pre_process_sentence sentence) = pre_process_sentence sentence.
Proof.
  unfold pre_process_sentence.
  set (s := foldl py_remove _ _). split.
  - apply lstrip_id, lstrip_head.
  - apply rstrip_id. intros c Hc.
    apply last_lstrip in Hc. by apply last_rstrip in Hc.
Qed.

(** What follows [strip_dangling] for a pair leaves alone every character
    that is neither whitespace nor part of a later pair or of a bad
    substring. *)
Lemma after_pairs_filter (P : N -> Prop) `{!forall x, Decision (P x)}
  later (s : list N) :
  Forall (fun lr => ~ P lr.1 /\ ~ P lr.2) later ->
  Forall (Forall (fun x => ~ P x)) bad_substrings ->
  (forall x, P x -> isspace x = false) ->
  filter P (lstrip (rstrip
     (foldl py_remove (foldl strip_dangling s later) bad_substrings)))
  = filter P s.
Proof.
  intros Hlater Hbad Hsp.
  rewrite lstrip_filter, rstrip_filter by done.
  rewrite foldl_py_remove_filter by done.
  by apply foldl_strip_dangling_filter.
Qed.

Ltac solve_not_in :=
  repeat first [ apply Forall_nil
               | apply Forall_cons; split
               | split
               | (intros ?; simpl in *; congruence) ].

(** A sentence with exactly one double quote loses it; with none, or with
    two or more, it keeps them all. *)
Theorem pre_process_sentence_double_quote (sentence : list N) :
  py_count (pre_process_sentence sentence) [double_quote]
  = if py_count sentence [double_quote] =? 1 then 0
    else py_count sentence [double_quote].
Proof.
  unfold pre_process_sentence.
  rewrite (py_count_char _ double_quote).
  rewrite (after_pairs_filter (fun x => x = double_quote)).
  - destruct (py_count sentence [double_quote] =? 1).
    + by rewrite py_remove_char, filter_eq_ne_nil.
    + by rewrite <- py_count_char.
  - unfold pairs, double_quote. solve_not_in.
  - unfold bad_substrings, double_quote. solve_not_in.
  - by intros x ->.
Qed.

(** For each of the three kinds of brackets, the result never holds
    exactly one opening bracket and no closing one, nor exactly one
    closing bracket and no opening one. *)
Theorem pre_process_sentence_no_dangling_bracket (sentence : list N) l r :
  (l, r) ∈ pairs ->
  let out := pre_process_sentence sentence in
  ~ (py_count out [l] = 1 /\ py_count out [r] = 0) /\
  ~ (py_count out [r] = 1 /\ py_count out [l] = 0).
Proof.
  intros Hin. cbv zeta. unfold pre_process_sentence.
  set (s1 := if py_count sentence [double_quote] =? 1
             then py_remove sentence [double_quote] else sentence).
  assert (Hgen : forall (s : list N) later,
    l <> r ->
    Forall (fun lr => (lr.1 <> l /\ lr.2 <> l) /\ (lr.1 <> r /\ lr.2 <> r)) later ->
    Forall (Forall (fun x => x <> l /\ x <> r)) bad_substrings ->
    isspace l = false -> isspace r = false ->
    let out := lstrip (rstrip (foldl py_remove
                 (foldl strip_dangling (strip_dangling s (l, r)) later)
                 bad_substrings)) in
    ~ (py_count out [l] = 1 /\ py_count out [r] = 0) /\
    ~ (py_count out [r] = 1 /\ py_count out [l] = 0)).
  { intros s later Hlr Hlater Hbad Hl Hr. cbv zeta.
    rewrite !py_count_char.
    rewrite (after_pairs_filter (fun x => x = l)), (after_pairs_filter (fun x => x = r)).
    - rewrite <- !py_count_char. by apply strip_dangling_post.
    - eapply Forall_impl; [exact Hlater|].
      intros [a b] [[? ?] [? ?]]; cbn in *. by split.
    - eapply Forall_impl; [exact Hbad|]. intros sub Hs.
      eapply Forall_impl; [exact Hs|]. by intros x [? ?].
    - by intros x ->.
    - eapply Forall_impl; [exact Hlater|].
      intros [a b] [[? ?] [? ?]]; cbn in *. by split.
    - eapply Forall_impl; [exact Hbad|]. intros sub Hs.
      eapply Forall_impl; [exact Hs|]. by intros x [? ?].
    - by intros x ->. }
  unfold pairs in Hin |- *.
  apply elem_of_cons in Hin as [[= -> ->] | Hin];
    [|apply elem_of_cons in Hin as [[= -> ->] | Hin];
      [|apply elem_of_cons in Hin as [[= -> ->] | Hin];
        [|by apply elem_of_nil in Hin]]].
  - apply (Hgen s1 [(40%N, 41%N); (91%N, 93%N)]);
      [done | | unfold bad_substrings | done | done]; solve_not_in.
  - apply (Hgen (strip_dangling s1 (123%N, 125%N)) [(91%N, 93%N)]);
      [done | | unfold bad_substrings | done | done]; solve_not_in.
  - apply (Hgen (strip_dangling (strip_dangling s1 (123%N, 125%N)) (40%N, 41%N)) []);
      [done | | unfold bad_substrings | done | done]; solve_not_in.
Qed.

Lemma pre_process_sentence_no_dangling_bracket_witness :
  (40%N, 41%N) ∈ pairs /\
  ~ (py_count (pre_process_sentence (pystr_of_string "a (b c")) [40%N] = 1 /\
     py_count (pre_process_sentence (pystr_of_string "a (b c")) [41%N] = 0).
Proof.
  assert (H : (40%N, 41%N) ∈ pairs) by (unfold pairs; right; left).
  split; [exact H|].
  exact (proj1 (pre_process_sentence_no_dangling_bracket
                  (pystr_of_string "a (b c") 40%N 41%N H)).
Defined.

Section ProcessText.
Context `{Collaborators}.

(** The loop of [process_text] only adds phrase rows to the session: one
    for each sentence it got through, numbered from [x] on, holding the
    pre-processed sentence and the source. *)
Lemma add_phrases_spec source_id sentences : forall x w,
  exists ps,
    durable (add_phrases source_id x sentences w).1 = durable w /\
    pending (add_phrases source_id x sentences w).1
      = pending w ++ (PhraseRow <$> ps) /\
    phrase_line_no <$> ps = seq x (length ps) /\
    raw <$> ps = pre_process_sentence <$> take (length ps) sentences /\
    Forall (fun p => phrase_source p = source_id) ps /\
    ((add_phrases source_id x sentences w).2 = inr tt ->
     length ps = length sentences).
Proof.
  induction sentences as [|s rest IH]; intros x w.
  - exists []. cbn. rewrite app_nil_r. repeat split; done.
  - cbn [add_phrases]. unfold bind, lift.
    destruct (stem_sentence (pre_process_sentence s)) as [e|stems];
      [exists []; cbn; rewrite app_nil_r; repeat split; done|].
    cbn [ret].
    destruct (nlp_rhyme_sound (pre_process_sentence s)) as [e|rs];
      [exists []; cbn; rewrite app_nil_r; repeat split; done|].
    destruct (count_syllables (pre_process_sentence s)) as [e|sy];
      [exists []; cbn; rewrite app_nil_r; repeat split; done|].
    destruct (has_alliteration (pre_process_sentence s)) as [e|al];
      [exists []; cbn; rewrite app_nil_r; repeat split; done|].
    cbn [ret session_add].
    set (p := mkPhrase stems (pre_process_sentence s) al rs sy x source_id).
    set (w1 := mkWorld (durable w) (pending w ++ [PhraseRow p])).
    destruct (IH (S x) w1) as (ps & Hd & Hp & Hl & Hr & Hs & Hok).
    exists (p :: ps). repeat split.
    + by rewrite Hd.
    + rewrite Hp. subst w1. cbn. by rewrite <- app_assoc.
    + cbn. by rewrite Hl.
    + cbn. by rewrite Hr.
    + by constructor.
    + intros E. cbn. by rewrite (Hok E).
Qed.

(** [process_text] never commits: whatever it returns, and also when an
    analyzer raises half way, the durable store is as it was; the session
    holds what it held before, then the source with the text whose
    whitespace was collapsed, then phrase rows only. *)
Theorem process_text_never_commits
  (nlp_sentences : pystr -> Exn + list pystr) source_id raw_text w :
  let w' := (process_text nlp_sentences source_id raw_text w).1 in
  durable w' = durable w /\
  exists ps,
    pending w' = pending w
      ++ SourceRow source_id (pre_process_text raw_text)
      :: (PhraseRow <$> ps).
Proof.
  cbv zeta. unfold process_text, bind, session_add, lift.
  destruct (nlp_sentences (pre_process_text raw_text)) as [e|sentences].
  - cbn. split; [done|]. by exists [].
  - cbn [ret].
    set (w1 := mkWorld _ _).
    destruct (add_phrases_spec source_id sentences 0 w1)
      as (ps & Hd & Hp & _).
    destruct (add_phrases source_id 0 sentences w1) as [w2 r] eqn:E.
    cbn in Hd, Hp |- *. split; [done|].
    exists ps. rewrite Hp. by rewrite <- app_assoc.
Qed.

(** When [process_text] returns normally, the tokenizer gave some
    sentences and the session received, after the source, exactly one
    phrase per sentence in their order: the phrase of the sentence at index
    [x] has line number [x], holds the pre-processed sentence as its raw
    text and refers to the source. *)
Theorem process_text_phrases
  (nlp_sentences : pystr -> Exn + list pystr) source_id raw_text w w' :
  process_text nlp_sentences source_id raw_text w = (w', inr tt) ->
  exists sentences ps,
    nlp_sentences (pre_process_text raw_text) = inr sentences /\
    pending w' = pending w
      ++ SourceRow source_id (pre_process_text raw_text)
      :: (PhraseRow <$> ps) /\
    phrase_line_no <$> ps = seq 0 (length sentences) /\
    raw <$> ps = pre_process_sentence <$> sentences /\
    Forall (fun p => phrase_source p = source_id) ps.
Proof.
  unfold process_text, bind, session_add, lift.
  destruct (nlp_sentences (pre_process_text raw_text)) as [e|sentences];
    [done|].
  cbn [ret]. set (w1 := mkWorld _ _). intros E.
  destruct (add_phrases_spec source_id sentences 0 w1)
    as (ps & _ & Hp & Hl & Hr & Hs & Hok).
  rewrite E in Hp, Hok. cbn in Hp, Hok.
  specialize (Hok eq_refl).
  exists sentences, ps. repeat split; [| |
    |done].
  - rewrite Hp. by rewrite <- app_assoc.
  - by rewrite Hl, Hok.
  - rewrite Hr, Hok. by rewrite firstn_all.
Qed.

End ProcessText.

Lemma process_text_phrases_witness :
  exists (sentences : list pystr) (ps : list Phrase),
    @inr Exn (list pystr) [pre_process_text (pystr_of_string "a  b")]
      = inr sentences /\
    pending (mkWorld (mkDatabase ∅ [])
       [SourceRow 1 (pystr_of_string "a b");
        PhraseRow (mkPhrase [] (pystr_of_string "a b") false [] 0 0 1)])
    = [] ++ SourceRow 1 (pre_process_text (pystr_of_string "a  b"))
         :: (PhraseRow <$> ps) /\
    phrase_line_no <$> ps = seq 0 (length sentences) /\
    raw <$> ps = pre_process_sentence <$> sentences /\
    Forall (fun p => phrase_source p = 1%Z) ps.
Proof.
  exact (@process_text_phrases second_unit_fails
           (fun t : pystr => inr [t]) 1%Z (pystr_of_string "a  b")
           (mkWorld (mkDatabase ∅ []) []) _ eq_refl).
Defined.

(** ** The segmenter and the chunk size *)

(** A character adds at most one character to the buffer. *)
Lemma step_line_buff_length s c :
  length (line_buff (step s c)) <= S (length (line_buff s)).
Proof.
  unfold step.
  repeat match goal with
         | |- context [if ?b then _ else _] => destruct b
         end; cbn; rewrite ?length_app; cbn; lia.
Qed.

(** While a chunk is scanned, the buffer holds at most as many characters
    as were read of this chunk, so what is submitted at a marker is shorter
    than the chunk. *)
Lemma foldl_step_short k chunk : forall s,
  length (line_buff s) + length chunk <= k ->
  Forall (fun p => length p.2 < k) (futures s) ->
  Forall (fun p => length p.2 < k) (futures (foldl step s chunk)).
Proof.
  induction chunk as [|c chunk IH]; intros s Hlen Hf; [done|].
  cbn [foldl]. cbn [length] in Hlen. apply IH.
  - pose proof (step_line_buff_length s c). lia.
  - destruct (step_cases s c) as [(_ & _ & ->) | (_ & _ & ->)]; [done|].
    cbn. apply Forall_app. split; [done|].
    constructor; [cbn; lia | constructor].
Qed.

Lemma read_loop_short fuel size : forall chunk text s s',
  length chunk <= size ->
  read_loop fuel size chunk text s = Some s' ->
  Forall (fun p => length p.2 < size) (futures s) ->
  Forall (fun p => length p.2 < size) (futures s').
Proof.
  induction fuel as [|fuel IH]; intros chunk text s s' Hc; cbn [read_loop];
    [discriminate|].
  destruct (0 <? length chunk).
  - unfold read. intros E Hf. eapply IH; [|exact E|].
    + rewrite length_take. lia.
    + unfold scan_chunk. apply foldl_step_short; [cbn; lia | done].
  - by intros [= <-].
Qed.

(** No candidate is as long as a chunk: the buffer is emptied at the head
    of every chunk and the marker that submits it is itself a character of
    the chunk.  With [CHUNK_SIZE], [process_text_stream] never submits a
    line of 10000 characters or more. *)
Theorem candidates_shorter_than_chunk size text :
  Forall (fun p => length p.2 < size) (futures (segment size text)).
Proof.
  pose proof (segment_opt_total size text) as E.
  unfold segment_opt, read in E.
  eapply read_loop_short; [|exact E|by constructor].
  rewrite length_take. lia.
Qed.

(** The buffer and the accumulated text together never hold more
    characters than were read. *)
Lemma foldl_step_length chunk : forall s,
  length (ultimate_text (foldl step s chunk))
  + length (line_buff (foldl step s chunk))
  <= length (ultimate_text s) + length (line_buff s) + length chunk.
Proof.
  induction chunk as [|c chunk IH]; intros s; cbn [foldl length]; [lia|].
  etrans; [apply IH|].
  enough (length (ultimate_text (step s c)) + length (line_buff (step s c))
          <= length (ultimate_text s) + length (line_buff s) + 1) by lia.
  unfold step.
  repeat match goal with
         | |- context [if ?b then _ else _] => destruct b
         end; cbn; rewrite ?length_app; cbn; lia.
Qed.

Lemma read_loop_length fuel size : forall chunk text s s',
  read_loop fuel size chunk text s = Some s' ->
  length (ultimate_text s')
  <= length (ultimate_text s) + length chunk + length text.
Proof.
  induction fuel as [|fuel IH]; intros chunk text s s'; cbn [read_loop];
    [discriminate|].
  destruct (0 <? length chunk).
  - unfold read. intros E. apply IH in E.
    rewrite length_take, length_drop in E.
    pose proof (foldl_step_length chunk (set_line_buff [] s)) as Hs.
    fold (scan_chunk chunk s) in Hs.
    cbn [set_line_buff ultimate_text line_buff length] in Hs. lia.
  - intros [= <-]. lia.
Qed.

(** The text saved as the content of the source is never longer than the
    text that was read. *)
Theorem ultimate_text_not_longer size text :
  length (ultimate_text (segment size text)) <= length text.
Proof.
  pose proof (segment_opt_total size text) as E.
  unfold segment_opt, read in E. apply read_loop_length in E.
  rewrite length_take, length_drop in E.
  cbn [init_state ultimate_text length] in E. lia.
Qed.

(** No character is in two of the three tables, so the order in which
    [process_text_stream] tests them does not matter: a character is
    handled as a clause marker exactly when [CLAUSE_MARKERS] holds it, as
    a sentence marker exactly when [SENTENCE_MARKERS] holds it. *)
Theorem tables_are_disjoint c :
  (classify c = Filtered <-> get BAD_CHARS c = true) /\
  (classify c = ClauseMarker <-> get CLAUSE_MARKERS c = true) /\
  (classify c = SentenceMarker <-> get SENTENCE_MARKERS c = true).
Proof.
  split; [apply classify_filtered|].
  assert (Hb : forall items, get (py_dict items) c = true -> c ∈ items.*1).
  { intros items. induction items as [|kv items IH] using rev_ind;
      [done|].
    rewrite py_dict_snoc, fmap_app, elem_of_app. unfold get.
    destruct (decide (kv.1 = c)) as [<- | Hne].
    - intros _. right. cbn. left.
    - rewrite lookup_insert_ne by done. intros Hg. left. by apply IH. }
  assert (Hin : forall items, c ∈ items.*1 ->
                 Forall (fun kv => kv.2 = true) items ->
                 get (py_dict items) c = true).
  { intros items. induction items as [|kv items IH] using rev_ind;
      [by intros ?%elem_of_nil|].
    rewrite py_dict_snoc, fmap_app, elem_of_app, Forall_app, Forall_singleton.
    unfold get. intros Hc [Hall Hkv].
    destruct (decide (kv.1 = c)) as [<- | Hne].
    - rewrite lookup_insert_eq. exact Hkv.
    - rewrite lookup_insert_ne by done. apply IH; [|done].
      destruct Hc as [Hc | Hc]; [done|].
      cbn in Hc. apply list_elem_of_singleton in Hc. congruence. }
  split.
  - unfold classify. split.
    + destruct (get BAD_CHARS c); [done|].
      destruct (get CLAUSE_MARKERS c); [done|].
      by destruct (get SENTENCE_MARKERS c).
    + intros Hc. rewrite Hc.
      destruct (get BAD_CHARS c) eqn:Hbad; [|done].
      apply Hb in Hc. apply Hb in Hbad. exfalso.
      cbn in Hc, Hbad.
      repeat (apply elem_of_cons in Hc as [-> | Hc];
              [clear -Hbad;
               repeat (apply elem_of_cons in Hbad as [Hbad | Hbad];
                       [discriminate|]);
               by apply elem_of_nil in Hbad|]).
      by apply elem_of_nil in Hc.
  - unfold classify. split.
    + destruct (get BAD_CHARS c); [done|].
      destruct (get CLAUSE_MARKERS c); [done|].
      by destruct (get SENTENCE_MARKERS c).
    + intros Hc. rewrite Hc.
      destruct (get BAD_CHARS c) eqn:Hbad;
        [|destruct (get CLAUSE_MARKERS c) eqn:Hcl; [|done]];
        apply Hb in Hc; exfalso; cbn in Hc.
      * apply Hb in Hbad. cbn in Hbad.
        repeat (apply elem_of_cons in Hc as [-> | Hc];
                [clear -Hbad;
                 repeat (apply elem_of_cons in Hbad as [Hbad | Hbad];
                         [discriminate|]);
                 by apply elem_of_nil in Hbad|]).
        by apply elem_of_nil in Hc.
      * apply Hb in Hcl. cbn in Hcl.
        repeat (apply elem_of_cons in Hc as [-> | Hc];
                [clear -Hcl;
                 repeat (apply elem_of_cons in Hcl as [Hcl | Hcl];
                         [discriminate|]);
                 by apply elem_of_nil in Hcl|]).
        by apply elem_of_nil in Hc.
Qed.

(** ** [process_line] and [process_text_stream]: the other outcomes *)

Lemma omap_lookup_seq {A} (l : list A) : forall pre,
  omap (fun i => (pre ++ l) !! i) (seq (length pre) (length l)) = l.
Proof.
  induction l as [|x l IH]; intros pre; [done|].
  cbn [length seq]. cbn -[lookup]. rewrite list_lookup_middle by done.
  f_equal. specialize (IH (pre ++ [x])).
  rewrite length_app, Nat.add_1_r, <- app_assoc in IH. exact IH.
Qed.

Lemma first_exception_None completion results :
  (forall i e, results !! i <> Some (inl e)) ->
  first_exception completion results = None.
Proof.
  intros Hok. induction completion as [|i completion IH]; [done|].
  cbn [first_exception].
  destruct (results !! i) as [[e | []]|] eqn:E; [|done..].
  by destruct (Hok i e).
Qed.

Section Outcomes.
Context `{Collaborators}.

(** When no call fails, the pool leaves one phrase per call that was run,
    in the order in which the calls committed. *)
Lemma run_pool_all_succeed exec source_id futs db :
  NoDup exec ->
  (forall i, i ∈ exec -> i < length futs) ->
  (forall i e, (run_pool exec source_id futs db).2 !! i <> Some (inl e)) ->
  exists ps,
    (run_pool exec source_id futs db).1
    = mkDatabase (sources db) (phrases db ++ ps) /\
    (fun p => (phrase_line_no p, raw p)) <$> ps
    = omap (fun i => futs !! i) exec /\
    Forall (fun p => phrase_source p = source_id) ps.
Proof.
  induction exec as [|k exec IH] using rev_ind; intros Hnd Hlt Hok.
  { exists []. cbn. rewrite app_nil_r. by destruct db. }
  apply NoDup_app in Hnd as (Hnd & Hk & _).
  assert (Hkin : k ∉ exec).
  { intros Hin. apply (Hk k Hin). left. }
  rewrite run_pool_snoc in Hok |- *. cbv zeta in Hok |- *.
  destruct (lookup_lt_is_Some_2 futs k) as [call Hcall].
  { apply Hlt, elem_of_app. right. left. }
  rewrite Hcall in Hok |- *.
  assert (Hlt' : forall i, i ∈ exec -> i < length futs).
  { intros i Hi. apply Hlt, elem_of_app. by left. }
  assert (Hok' : forall i e,
            (run_pool exec source_id futs db).2 !! i <> Some (inl e)).
  { intros i e Hi.
    assert (Hik : i <> k).
    { intros ->. apply Hkin. eapply run_pool_result_dom. exact Hi. }
    apply (Hok i e).
    destruct (run_unit _ _ _) as [db' r]. cbn [snd].
    by rewrite lookup_insert_ne. }
  destruct (IH Hnd Hlt' Hok') as (ps & Hdb & Hps & Hsrc).
  destruct (run_unit_effect source_id call (run_pool exec source_id futs db).1)
    as [[e He] | (p & Hp & Hraw & Hno & Hs)].
  - rewrite He in Hok. cbn [snd] in Hok.
    destruct (Hok k e). apply lookup_insert_eq.
  - rewrite Hp. cbn [fst]. rewrite Hdb. cbn [sources phrases].
    exists (ps ++ [p]). split; [by rewrite <- app_assoc|]. split.
    + rewrite fmap_app, omap_app, Hps. cbn. rewrite Hcall, Hraw, Hno.
      by destruct call.
    + apply Forall_app. split; [done|]. by constructor.
Qed.

(** [process_line] for a source that is not in the store raises
    [NoResultFound] before anything else happens: nothing is added to the
    session and nothing is written. *)
Theorem process_line_missing_source source_id line_no line w :
  sources (durable w) !! source_id = None ->
  process_line source_id line_no line w = (w, inl NoResultFound).
Proof.
  intros Hs. unfold process_line, bind, query_source_one. by rewrite Hs.
Qed.


(** When every commit goes through and no unit of work fails,
    [process_text_stream] returns normally with an empty session; the
    content of the source is then the accumulated text, the store holds
    one new phrase for each submitted line, each with the line number and
    the text that were submitted and with this source, after the phrases
    it held before, and no other source was touched. *)
Theorem process_text_stream_success exec completion source_id text w :
  let st := segment CHUNK_SIZE text in
  let db0 :=
    foldl apply_row (durable w) (pending w ++ [SourceRow source_id []]) in
  let pool := run_pool exec source_id (futures st) db0 in
  commit_fault (pending w ++ [SourceRow source_id []]) = None ->
  commit_fault [SourceRow source_id (ultimate_text st)] = None ->
  exec ≡ₚ seq 0 (length (futures st)) ->
  (forall i e, pool.2 !! i <> Some (inl e)) ->
  exists ps,
    process_text_stream exec completion source_id text w
    = (mkWorld
         (mkDatabase (<[source_id := ultimate_text st]> (sources db0))
                     (phrases db0 ++ ps)) [],
       inr tt) /\
    (fun p => (phrase_line_no p, raw p)) <$> ps ≡ₚ futures st /\
    Forall (fun p => phrase_source p = source_id) ps.
Proof.
  intros st db0 pool.
  assert (Hst : segment CHUNK_SIZE text = st) by reflexivity.
  assert (Hpool : run_pool exec source_id (futures st) db0 = pool)
    by reflexivity.
  clearbody pool st.
  intros Hc1 Hc2 Hexec Hok.
  destruct (run_pool_all_succeed exec source_id (futures st) db0)
    as (ps & Hdb & Hps & Hsrc).
  { rewrite Hexec. apply NoDup_seq. }
  { intros i Hi. rewrite Hexec in Hi. apply elem_of_seq in Hi. lia. }
  { by rewrite Hpool. }
  exists ps. split; [|split; [|done]].
  - unfold process_text_stream, bind, session_add, session_commit, raise.
    cbn [durable pending]. rewrite Hc1, Hst. cbn [durable pending].
    fold db0. rewrite Hpool. rewrite Hpool in Hdb.
    destruct pool as [db1 results]. cbn [fst snd] in *.
    rewrite (first_exception_None completion results Hok).
    cbn [durable pending app]. rewrite Hc2. subst db1. done.
  - pose proof (omap_lookup_seq (futures st) []) as Hseq.
    cbn [app length] in Hseq. by rewrite Hps, Hexec, Hseq.
Qed.


End Outcomes.

Lemma process_line_missing_source_witness :
  process_line (H := second_unit_fails) 7%Z 0 (pystr_of_string "a line")
    (mkWorld (mkDatabase ∅ []) [])
  = (mkWorld (mkDatabase ∅ []) [], inl NoResultFound).
Proof.
  apply (process_line_missing_source (H := second_unit_fails)).
  reflexivity.
Defined.


Lemma process_text_stream_success_witness :
  (process_text_stream (H := store_refusing (fun _ => false))
     [2; 0; 1] [1; 2; 0] 7%Z three_clauses
     (mkWorld (mkDatabase ∅ []) [])).2 = inr tt.
Proof.
  assert (Hseq : seq 0 (length (futures (segment CHUNK_SIZE three_clauses)))
                 = [0; 1; 2]) by (vm_compute; reflexivity).
  destruct (process_text_stream_success
              (H := store_refusing (fun _ => false))
              [2; 0; 1] [1; 2; 0] 7%Z three_clauses
              (mkWorld (mkDatabase ∅ []) []))
    as (ps & E & _).
  - reflexivity.
  - reflexivity.
  - rewrite Hseq. solve_Permutation.
  - intros i e Hi.
    pose proof (run_pool_result_dom _ _ _ _ _ _ Hi) as Hin.
    repeat (apply elem_of_cons in Hin as [-> | Hin];
            [vm_compute in Hi; discriminate|]).
    by apply elem_of_nil in Hin.
  - rewrite E. reflexivity.
Defined.

